(** * WdRiscv::Memory and WdRiscv::InstId: a shallow embedding

    The data accessors of [class Memory] (Memory.hpp), its last-write
    recorder and its LR reservation table, followed by the instruction
    identity enumeration of InstId.hpp.

    Conventions.
    - [size_t] and [uint64_t] values are integers in [0, 2^64), [unsigned] and
      [uint32_t] values integers in [0, 2^32); the arithmetic that C++ performs
      modulo the word size is written with an explicit [mod].
    - A member function that mutates the object takes the memory and returns
      the memory it leaves behind next to its result.
    - [bool] results of the fallible accessors are refined: [ret_true] is
      [return true], [ret_false why] is [return false] where [why] names the
      [return false] statement that was taken, and [throws] is the
      [std::out_of_range] of [std::vector::at].
    - The code is embedded as compiled by the GNUmakefile, that is without
      [FAST_SLOPPY]. *)

From Stdlib Require Import ZArith Bool Lia.
From stdpp Require Import base option list gmap.

Local Open Scope Z_scope.

(** ** Machine integers *)

Definition size_t_max : Z := 2 ^ 64.
Definition uint32_max : Z := 2 ^ 32.

Definition is_size_t (x : Z) : Prop := 0 <= x < size_t_max.

(** [a + b] and [a - b] on [size_t]. *)
Definition size_t_add (a b : Z) : Z := (a + b) mod size_t_max.
Definition size_t_sub (a b : Z) : Z := (a - b) mod size_t_max.

(** The template parameter [T] of [read], [write] and [poke]:
    [uint8_t], [uint16_t], [uint32_t] or [uint64_t]. *)
Inductive width : Set := W1 | W2 | W4 | W8.

Definition sizeof (T : width) : Z :=
  match T with W1 => 1 | W2 => 2 | W4 => 4 | W8 => 8 end.

Definition bytes_of (T : width) : nat :=
  match T with W1 => 1 | W2 => 2 | W4 => 4 | W8 => 8 end%nat.

(** Values representable in [T]. *)
Definition fits (T : width) (v : Z) : Prop := 0 <= v < 2 ^ (8 * sizeof T).

#[global] Instance width_eq_dec : EqDecision width.
Proof. solve_decision. Defined.

(** ** Physical memory attributes *)

(** Modelled from the spec: class [Pma] is declared in PmaManager.hpp, which
    is not among the sources. The spec gives it the bitfields
    [{read, write, exec, mmr, iccm, dccm}] (the same six flags as
    [PageAttribs] in Memory.hpp), says that a page is mapped iff one of
    [read], [write], [exec] is set, and that [!=] compares the records
    bitwise. *)
Record Pma : Set := mkPma {
  read_ : bool;
  write_ : bool;
  exec_ : bool;
  reg_ : bool;
  iccm_ : bool;
  dccm_ : bool
}.

Definition isRead (p : Pma) : bool := read_ p.
Definition isWrite (p : Pma) : bool := write_ p.
Definition isExec (p : Pma) : bool := exec_ p.
Definition isMemMappedReg (p : Pma) : bool := reg_ p.
Definition isMapped (p : Pma) : bool := read_ p || write_ p || exec_ p.

#[global] Instance Pma_eq_dec : EqDecision Pma.
Proof. solve_decision. Defined.

(** [pma1 != pma2]. *)
Definition pma_differ (p q : Pma) : bool := bool_decide (p ≠ q).

(** Modelled from the spec: class [PmaManager] (PmaManager.hpp, not among the
    sources). [getPma] is total (an address outside the space has the unmapped
    attributes); [getMemMappedMask] is the write mask of the word containing
    the address. *)
Record PmaManager : Type := mkPmaManager {
  getPma : Z -> Pma;
  getMemMappedMask : Z -> Z
}.

(** ** Per-hart records *)

Module Reservation.
(** [struct Reservation]. *)
Record t : Set := mk {
  addr_ : Z;      (* size_t *)
  size_ : Z;      (* unsigned *)
  valid_ : bool
}.

(** The default member initialisers. *)
Definition init : t := mk 0 0 false.

(** [res.valid_ = false]. *)
Definition clear (res : t) : t := mk (addr_ res) (size_ res) false.
End Reservation.

Module LastWriteData.
(** [struct LastWriteData]. *)
Record t : Set := mk {
  size_ : Z;       (* unsigned *)
  addr_ : Z;       (* size_t *)
  value_ : Z;      (* uint64_t *)
  prevValue_ : Z   (* uint64_t *)
}.

Definition init : t := mk 0 0 0 0.
End LastWriteData.

(** ** The memory *)

(** The members of [class Memory] that the accessors below use. [data_] maps
    an offset from the [data_] pointer to the byte stored there; a byte that
    was never written is zero (the constructor zeroes the memory). The
    accessors do no bounds check of their own: an address outside the memory
    is refused through its attributes. *)
Record Memory : Type := mkMemory {
  size_ : Z;
  data_ : gmap Z Z;
  reservations_ : list Reservation.t;
  lastWriteData_ : list LastWriteData.t;
  pmaMgr_ : PmaManager
}.

Definition set_data (d : gmap Z Z) (m : Memory) : Memory :=
  mkMemory (size_ m) d (reservations_ m) (lastWriteData_ m) (pmaMgr_ m).

Definition set_reservations (rs : list Reservation.t) (m : Memory) : Memory :=
  mkMemory (size_ m) (data_ m) rs (lastWriteData_ m) (pmaMgr_ m).

Definition set_lastWriteData (ls : list LastWriteData.t) (m : Memory) : Memory :=
  mkMemory (size_ m) (data_ m) (reservations_ m) ls (pmaMgr_ m).

(** [setHartCount]: [std::vector::resize] keeps the leading elements and
    appends default-initialised ones. *)
Definition resize_to {A : Type} (n : nat) (d : A) (l : list A) : list A :=
  take n l ++ replicate (n - length l) d.

Definition setHartCount (count : nat) (m : Memory) : Memory :=
  set_lastWriteData (resize_to count LastWriteData.init (lastWriteData_ m))
    (set_reservations (resize_to count Reservation.init (reservations_ m)) m).

(** *** The backing store *)

(** [data_[a]], a [uint8_t]. *)
Definition byte_at (d : gmap Z Z) (a : Z) : Z := default 0 (d !! a) mod 256.

(** [*(reinterpret_cast<const T*>(data_ + a))] where [T] has [n] bytes: the
    bytes at [a], [a+1], ... taken in little-endian order. *)
Fixpoint load_le (d : gmap Z Z) (a : Z) (n : nat) : Z :=
  match n with
  | O => 0
  | S k => byte_at d a + 256 * load_le d (a + 1) k
  end.

(** [*(reinterpret_cast<T*>(data_ + a)) = v]. *)
Fixpoint store_le (d : gmap Z Z) (a : Z) (n : nat) (v : Z) : gmap Z Z :=
  match n with
  | O => d
  | S k => store_le (<[a := v mod 256]> d) (a + 1) k (v / 256)
  end.

Definition load (T : width) (a : Z) (m : Memory) : Z :=
  load_le (data_ m) a (bytes_of T).

Definition store (T : width) (a v : Z) (m : Memory) : Memory :=
  set_data (store_le (data_ m) a (bytes_of T) v) m.

(** *** Results *)

(** Which [return false] an accessor took. *)
Inductive fault : Set :=
| NoAccess      (* the gating attribute of the first byte is missing *)
| Straddle      (* the check made only for a misaligned address failed *)
| BadRegister.  (* refused by the memory-mapped register rules *)

Inductive ret (A : Type) : Type :=
| ret_true (a : A)
| ret_false (why : fault)
| throws.

Arguments ret_true {A} a.
Arguments ret_false {A} why.
Arguments throws {A}.

Definition returns_true {A} (r : ret A) : Prop :=
  match r with ret_true _ => True | _ => False end.

Definition returns_false {A} (r : ret A) : Prop :=
  match r with ret_false _ => True | _ => False end.

(** [address & (sizeof(T) - 1)], the misalignment test. *)
Definition misaligned (T : width) (address : Z) : bool :=
  negb (Z.land address (sizeof T - 1) =? 0).

(** [address + sizeof(T) - 1], the address of the last byte. *)
Definition last_byte (T : width) (address : Z) : Z :=
  size_t_sub (size_t_add address (sizeof T)) 1.

(** *** Memory-mapped registers *)

(** [getMemoryMappedMask], a [uint32_t]. *)
Definition getMemoryMappedMask (addr : Z) (m : Memory) : Z :=
  getMemMappedMask (pmaMgr_ m) addr mod uint32_max.

(** [doRegisterMasking]. *)
Definition doRegisterMasking (addr value : Z) (m : Memory) : Z :=
  let mask := getMemoryMappedMask addr m in
  Z.land value mask.

(** [readRegister]. *)
Definition readRegister (addr : Z) (m : Memory) : ret Z :=
  if negb (Z.land addr 3 =? 0) then ret_false BadRegister
  else ret_true (load W4 addr m).

(** [writeRegister]. The reference [lwd] is taken, by [at], before anything
    is stored. *)
Definition writeRegister (localHartId : nat) (addr value : Z) (m : Memory)
  : ret unit * Memory :=
  if negb (Z.land addr 3 =? 0) then (ret_false BadRegister, m)
  else
    let value := doRegisterMasking addr value m in
    match lastWriteData_ m !! localHartId with
    | None => (throws, m)
    | Some _ =>
        let prev := load W4 addr m in
        let m := store W4 addr value m in
        let lwd := LastWriteData.mk 4 addr value prev in
        (ret_true tt, set_lastWriteData (<[localHartId := lwd]> (lastWriteData_ m)) m)
    end.

(** *** Data reads *)

(** [read<T>]. *)
Definition read (T : width) (address : Z) (m : Memory) : ret Z :=
  let pma1 := getPma (pmaMgr_ m) address in
  if negb (isRead pma1) then ret_false NoAccess
  else if misaligned T address
          && pma_differ pma1 (getPma (pmaMgr_ m) (last_byte T address))
  then ret_false Straddle
  else if isMemMappedReg pma1 then
    if decide (T = W4) then readRegister address m else ret_false BadRegister
  else ret_true (load T address m).

(** [readByte]. *)
Definition readByte (address : Z) (m : Memory) : ret Z :=
  let pma := getPma (pmaMgr_ m) address in
  if negb (isRead pma) then ret_false NoAccess
  else if isMemMappedReg pma then ret_false BadRegister
  else ret_true (byte_at (data_ m) address).

Definition readHalfWord := read W2.
Definition readWord := read W4.
Definition readDoubleWord := read W8.

(** *** Data writes *)

(** [write<T>]. *)
Definition write (T : width) (localHartId : nat) (address value : Z) (m : Memory)
  : ret unit * Memory :=
  let pma1 := getPma (pmaMgr_ m) address in
  if negb (isWrite pma1) then (ret_false NoAccess, m)
  else if misaligned T address
          && pma_differ pma1 (getPma (pmaMgr_ m) (last_byte T address))
  then (ret_false Straddle, m)
  else if isMemMappedReg pma1 then
    if decide (T ≠ W4) then (ret_false BadRegister, m)
    else writeRegister localHartId address value m
  else
    match lastWriteData_ m !! localHartId with
    | None => (throws, m)
    | Some _ =>
        let lwd := LastWriteData.mk (sizeof T) address value (load T address m) in
        let m := set_lastWriteData (<[localHartId := lwd]> (lastWriteData_ m)) m in
        (ret_true tt, store T address value m)
    end.

(** [writeByte]. *)
Definition writeByte (localHartId : nat) (address value : Z) (m : Memory)
  : ret unit * Memory :=
  let pma := getPma (pmaMgr_ m) address in
  if negb (isWrite pma) then (ret_false NoAccess, m)
  else if isMemMappedReg pma then (ret_false BadRegister, m)
  else
    match lastWriteData_ m !! localHartId with
    | None => (throws, m)
    | Some _ =>
        let lwd := LastWriteData.mk 1 address value (byte_at (data_ m) address) in
        let m := set_lastWriteData (<[localHartId := lwd]> (lastWriteData_ m)) m in
        (ret_true tt, set_data (<[address := value mod 256]> (data_ m)) m)
    end.

Definition writeHalfWord := write W2.
Definition writeWord := write W4.
Definition writeDoubleWord := write W8.

(** *** Pokes *)

(** [poke<T>]. The masked value is computed only on the path where
    [sizeof(T)] is 4. *)
Definition poke (T : width) (address value : Z) (m : Memory) : ret unit * Memory :=
  let pma1 := getPma (pmaMgr_ m) address in
  if negb (isMapped pma1) then (ret_false NoAccess, m)
  else if misaligned T address
          && negb (isMapped (getPma (pmaMgr_ m) (last_byte T address)))
  then (ret_false Straddle, m)
  else if isMemMappedReg pma1 then
    if decide (T ≠ W4) then (ret_false BadRegister, m)
    else if negb (Z.land address 3 =? 0) then (ret_false BadRegister, m)
    else (ret_true tt, store T address (doRegisterMasking address value m) m)
  else (ret_true tt, store T address value m).

(** [pokeByte]. *)
Definition pokeByte (address value : Z) (m : Memory) : ret unit * Memory :=
  let pma := getPma (pmaMgr_ m) address in
  if negb (isMapped pma) then (ret_false NoAccess, m)
  else if isMemMappedReg pma then (ret_false BadRegister, m)
  else (ret_true tt, set_data (<[address := value mod 256]> (data_ m)) m).

(** ** Last-write recorder *)

(** [getLastWriteNewValue]: the result is the returned size with the final
    contents of the reference parameters [addr] and [value]; [None] is the
    exception of [at]. *)
Definition getLastWriteNewValue (localHartId : nat) (addr value : Z) (m : Memory)
  : option (Z * Z * Z) :=
  lwd ← lastWriteData_ m !! localHartId;
  if negb (LastWriteData.size_ lwd =? 0)
  then Some (LastWriteData.size_ lwd, LastWriteData.addr_ lwd, LastWriteData.value_ lwd)
  else Some (LastWriteData.size_ lwd, addr, value).

(** [getLastWriteOldValue]: the body assigns [lwd.value_] to [value], as
    [getLastWriteNewValue] does. *)
Definition getLastWriteOldValue (localHartId : nat) (addr value : Z) (m : Memory)
  : option (Z * Z * Z) :=
  lwd ← lastWriteData_ m !! localHartId;
  if negb (LastWriteData.size_ lwd =? 0)
  then Some (LastWriteData.size_ lwd, LastWriteData.addr_ lwd, LastWriteData.value_ lwd)
  else Some (LastWriteData.size_ lwd, addr, value).

(** [clearLastWriteInfo]. *)
Definition clearLastWriteInfo (localHartId : nat) (m : Memory) : option Memory :=
  lwd ← lastWriteData_ m !! localHartId;
  let lwd := LastWriteData.mk 0 (LastWriteData.addr_ lwd) (LastWriteData.value_ lwd)
               (LastWriteData.prevValue_ lwd) in
  Some (set_lastWriteData (<[localHartId := lwd]> (lastWriteData_ m)) m).

(** ** LR reservations *)

(** The two tests of the loop body of [invalidateOtherHartLr] and
    [invalidateLrs]: does a store of [storeSize] bytes at [addr] clear [res]? *)
Definition lr_hit (addr storeSize : Z) (res : Reservation.t) : bool :=
  if (Reservation.addr_ res <=? addr)
     && (size_t_sub addr (Reservation.addr_ res) <? Reservation.size_ res)
  then true
  else (addr <? Reservation.addr_ res)
       && (size_t_sub (Reservation.addr_ res) addr <? storeSize).

Definition lr_step (addr storeSize : Z) (res : Reservation.t) : Reservation.t :=
  if lr_hit addr storeSize res then Reservation.clear res else res.

(** [invalidateOtherHartLr]: the loop visits every index once and skips
    [localHartId]. *)
Definition invalidateOtherHartLr (localHartId : nat) (addr storeSize : Z)
  (m : Memory) : Memory :=
  set_reservations
    (imap (fun i res => if decide (i = localHartId) then res
                        else lr_step addr storeSize res)
          (reservations_ m)) m.

(** [invalidateLrs]. *)
Definition invalidateLrs (addr storeSize : Z) (m : Memory) : Memory :=
  set_reservations (imap (fun _ res => lr_step addr storeSize res) (reservations_ m)) m.

(** [invalidateLr]. *)
Definition invalidateLr (localHartId : nat) (m : Memory) : option Memory :=
  res ← reservations_ m !! localHartId;
  Some (set_reservations (<[localHartId := Reservation.clear res]> (reservations_ m)) m).

(** [makeLr]. *)
Definition makeLr (localHartId : nat) (addr size : Z) (m : Memory) : option Memory :=
  _ ← reservations_ m !! localHartId;
  Some (set_reservations
          (<[localHartId := Reservation.mk addr size true]> (reservations_ m)) m).

(** [hasLr]. *)
Definition hasLr (localHartId : nat) (addr : Z) (m : Memory) : option bool :=
  res ← reservations_ m !! localHartId;
  Some (Reservation.valid_ res && (Reservation.addr_ res =? addr)).


(** ** Instruction identities *)

Module InstId.

(** [enum class InstId], the enumerators in the order of their declaration. *)
Inductive t : Set :=
  | illegal | lui | auipc | jal | jalr | beq | bne | blt | bge | bltu | bgeu
  | lb | lh | lw | lbu | lhu | sb | sh | sw | addi | slti | sltiu | xori
  | ori | andi | slli | srli | srai | add | sub | sll | slt | sltu | xor_
  | srl | sra | or_ | and_ | fence | fencei | ecall | ebreak | csrrw | csrrs
  | csrrc | csrrwi | csrrsi | csrrci | lwu | ld | sd | addiw | slliw | srliw
  | sraiw | addw | subw | sllw | srlw | sraw | mul | mulh | mulhsu | mulhu
  | div | divu | rem | remu | mulw | divw | divuw | remw | remuw | lr_w
  | sc_w | amoswap_w | amoadd_w | amoxor_w | amoand_w | amoor_w | amomin_w
  | amomax_w | amominu_w | amomaxu_w | lr_d | sc_d | amoswap_d | amoadd_d
  | amoxor_d | amoand_d | amoor_d | amomin_d | amomax_d | amominu_d
  | amomaxu_d | flw | fsw | fmadd_s | fmsub_s | fnmsub_s | fnmadd_s | fadd_s
  | fsub_s | fmul_s | fdiv_s | fsqrt_s | fsgnj_s | fsgnjn_s | fsgnjx_s
  | fmin_s | fmax_s | fcvt_w_s | fcvt_wu_s | fmv_x_w | feq_s | flt_s | fle_s
  | fclass_s | fcvt_s_w | fcvt_s_wu | fmv_w_x | fcvt_l_s | fcvt_lu_s
  | fcvt_s_l | fcvt_s_lu | fld | fsd | fmadd_d | fmsub_d | fnmsub_d
  | fnmadd_d | fadd_d | fsub_d | fmul_d | fdiv_d | fsqrt_d | fsgnj_d
  | fsgnjn_d | fsgnjx_d | fmin_d | fmax_d | fcvt_s_d | fcvt_d_s | feq_d
  | flt_d | fle_d | fclass_d | fcvt_w_d | fcvt_wu_d | fcvt_d_w | fcvt_d_wu
  | fcvt_l_d | fcvt_lu_d | fmv_x_d | fcvt_d_l | fcvt_d_lu | fmv_d_x | mret
  | uret | sret | wfi | sfence_vma | c_addi4spn | c_fld | c_lq | c_lw | c_flw
  | c_ld | c_fsd | c_sq | c_sw | c_fsw | c_sd | c_addi | c_jal | c_li
  | c_addi16sp | c_lui | c_srli | c_srli64 | c_srai | c_srai64 | c_andi
  | c_sub | c_xor | c_or | c_and | c_subw | c_addw | c_j | c_beqz | c_bnez
  | c_slli | c_slli64 | c_fldsp | c_lwsp | c_flwsp | c_ldsp | c_jr | c_mv
  | c_ebreak | c_jalr | c_add | c_fsdsp | c_swsp | c_fswsp | c_addiw | c_sdsp
  | clz | ctz | pcnt | andn | orn | xnor | slo | sro | sloi | sroi | min
  | max | minu | maxu | rol | ror | rori | rev8 | rev | pack | addwu | subwu
  | addiwu | sext_b | sext_h | addu_w | subu_w | slliu_w | packh | packu
  | packw | packuw | grev | grevi | gorc | gorci | shfl | shfli | unshfl
  | unshfli | sbset | sbclr | sbinv | sbext | sbseti | sbclri | sbinvi
  | sbexti | bdep | bext | bfp | clmul | clmulh | clmulr | sh1add | sh2add
  | sh3add | sh1addu_w | sh2addu_w | sh3addu_w | crc32_b | crc32_h | crc32_w
  | crc32_d | crc32c_b | crc32c_h | crc32c_w | crc32c_d | bmator | bmatxor
  | bmatflip | cmov | cmix | fsl | fsr | fsri | vadd_vv | vadd_vx | vadd_vi
  | vsub_vv | vsub_vx | vrsub_vx | vrsub_vi | vminu_vv | vminu_vx | vmin_vv
  | vmin_vx | vmaxu_vv | vmaxu_vx | vmax_vv | vmax_vx | vand_vv | vand_vx
  | vand_vi | vor_vv | vor_vx | vor_vi | vxor_vv | vxor_vx | vxor_vi
  | vrgather_vv | vrgather_vx | vrgather_vi.

(** The last declaration of the enumeration, [maxId = vrgather_vi]. *)
Definition maxId : t := vrgather_vi.

(** The integer of an enumerator: [illegal] has no initialiser and is 0,
    every following enumerator is one more than the one before it. *)
Definition value (id : t) : Z :=
  match id with
  | illegal => 0 | lui => 1 | auipc => 2 | jal => 3 | jalr => 4 | beq => 5
  | bne => 6 | blt => 7 | bge => 8 | bltu => 9 | bgeu => 10 | lb => 11
  | lh => 12 | lw => 13 | lbu => 14 | lhu => 15 | sb => 16 | sh => 17
  | sw => 18 | addi => 19 | slti => 20 | sltiu => 21 | xori => 22 | ori => 23
  | andi => 24 | slli => 25 | srli => 26 | srai => 27 | add => 28 | sub => 29
  | sll => 30 | slt => 31 | sltu => 32 | xor_ => 33 | srl => 34 | sra => 35
  | or_ => 36 | and_ => 37 | fence => 38 | fencei => 39 | ecall => 40
  | ebreak => 41 | csrrw => 42 | csrrs => 43 | csrrc => 44 | csrrwi => 45
  | csrrsi => 46 | csrrci => 47 | lwu => 48 | ld => 49 | sd => 50
  | addiw => 51 | slliw => 52 | srliw => 53 | sraiw => 54 | addw => 55
  | subw => 56 | sllw => 57 | srlw => 58 | sraw => 59 | mul => 60
  | mulh => 61 | mulhsu => 62 | mulhu => 63 | div => 64 | divu => 65
  | rem => 66 | remu => 67 | mulw => 68 | divw => 69 | divuw => 70
  | remw => 71 | remuw => 72 | lr_w => 73 | sc_w => 74 | amoswap_w => 75
  | amoadd_w => 76 | amoxor_w => 77 | amoand_w => 78 | amoor_w => 79
  | amomin_w => 80 | amomax_w => 81 | amominu_w => 82 | amomaxu_w => 83
  | lr_d => 84 | sc_d => 85 | amoswap_d => 86 | amoadd_d => 87
  | amoxor_d => 88 | amoand_d => 89 | amoor_d => 90 | amomin_d => 91
  | amomax_d => 92 | amominu_d => 93 | amomaxu_d => 94 | flw => 95
  | fsw => 96 | fmadd_s => 97 | fmsub_s => 98 | fnmsub_s => 99
  | fnmadd_s => 100 | fadd_s => 101 | fsub_s => 102 | fmul_s => 103
  | fdiv_s => 104 | fsqrt_s => 105 | fsgnj_s => 106 | fsgnjn_s => 107
  | fsgnjx_s => 108 | fmin_s => 109 | fmax_s => 110 | fcvt_w_s => 111
  | fcvt_wu_s => 112 | fmv_x_w => 113 | feq_s => 114 | flt_s => 115
  | fle_s => 116 | fclass_s => 117 | fcvt_s_w => 118 | fcvt_s_wu => 119
  | fmv_w_x => 120 | fcvt_l_s => 121 | fcvt_lu_s => 122 | fcvt_s_l => 123
  | fcvt_s_lu => 124 | fld => 125 | fsd => 126 | fmadd_d => 127
  | fmsub_d => 128 | fnmsub_d => 129 | fnmadd_d => 130 | fadd_d => 131
  | fsub_d => 132 | fmul_d => 133 | fdiv_d => 134 | fsqrt_d => 135
  | fsgnj_d => 136 | fsgnjn_d => 137 | fsgnjx_d => 138 | fmin_d => 139
  | fmax_d => 140 | fcvt_s_d => 141 | fcvt_d_s => 142 | feq_d => 143
  | flt_d => 144 | fle_d => 145 | fclass_d => 146 | fcvt_w_d => 147
  | fcvt_wu_d => 148 | fcvt_d_w => 149 | fcvt_d_wu => 150 | fcvt_l_d => 151
  | fcvt_lu_d => 152 | fmv_x_d => 153 | fcvt_d_l => 154 | fcvt_d_lu => 155
  | fmv_d_x => 156 | mret => 157 | uret => 158 | sret => 159 | wfi => 160
  | sfence_vma => 161 | c_addi4spn => 162 | c_fld => 163 | c_lq => 164
  | c_lw => 165 | c_flw => 166 | c_ld => 167 | c_fsd => 168 | c_sq => 169
  | c_sw => 170 | c_fsw => 171 | c_sd => 172 | c_addi => 173 | c_jal => 174
  | c_li => 175 | c_addi16sp => 176 | c_lui => 177 | c_srli => 178
  | c_srli64 => 179 | c_srai => 180 | c_srai64 => 181 | c_andi => 182
  | c_sub => 183 | c_xor => 184 | c_or => 185 | c_and => 186 | c_subw => 187
  | c_addw => 188 | c_j => 189 | c_beqz => 190 | c_bnez => 191
  | c_slli => 192 | c_slli64 => 193 | c_fldsp => 194 | c_lwsp => 195
  | c_flwsp => 196 | c_ldsp => 197 | c_jr => 198 | c_mv => 199
  | c_ebreak => 200 | c_jalr => 201 | c_add => 202 | c_fsdsp => 203
  | c_swsp => 204 | c_fswsp => 205 | c_addiw => 206 | c_sdsp => 207
  | clz => 208 | ctz => 209 | pcnt => 210 | andn => 211 | orn => 212
  | xnor => 213 | slo => 214 | sro => 215 | sloi => 216 | sroi => 217
  | min => 218 | max => 219 | minu => 220 | maxu => 221 | rol => 222
  | ror => 223 | rori => 224 | rev8 => 225 | rev => 226 | pack => 227
  | addwu => 228 | subwu => 229 | addiwu => 230 | sext_b => 231
  | sext_h => 232 | addu_w => 233 | subu_w => 234 | slliu_w => 235
  | packh => 236 | packu => 237 | packw => 238 | packuw => 239 | grev => 240
  | grevi => 241 | gorc => 242 | gorci => 243 | shfl => 244 | shfli => 245
  | unshfl => 246 | unshfli => 247 | sbset => 248 | sbclr => 249
  | sbinv => 250 | sbext => 251 | sbseti => 252 | sbclri => 253
  | sbinvi => 254 | sbexti => 255 | bdep => 256 | bext => 257 | bfp => 258
  | clmul => 259 | clmulh => 260 | clmulr => 261 | sh1add => 262
  | sh2add => 263 | sh3add => 264 | sh1addu_w => 265 | sh2addu_w => 266
  | sh3addu_w => 267 | crc32_b => 268 | crc32_h => 269 | crc32_w => 270
  | crc32_d => 271 | crc32c_b => 272 | crc32c_h => 273 | crc32c_w => 274
  | crc32c_d => 275 | bmator => 276 | bmatxor => 277 | bmatflip => 278
  | cmov => 279 | cmix => 280 | fsl => 281 | fsr => 282 | fsri => 283
  | vadd_vv => 284 | vadd_vx => 285 | vadd_vi => 286 | vsub_vv => 287
  | vsub_vx => 288 | vrsub_vx => 289 | vrsub_vi => 290 | vminu_vv => 291
  | vminu_vx => 292 | vmin_vv => 293 | vmin_vx => 294 | vmaxu_vv => 295
  | vmaxu_vx => 296 | vmax_vv => 297 | vmax_vx => 298 | vand_vv => 299
  | vand_vx => 300 | vand_vi => 301 | vor_vv => 302 | vor_vx => 303
  | vor_vi => 304 | vxor_vv => 305 | vxor_vx => 306 | vxor_vi => 307
  | vrgather_vv => 308 | vrgather_vx => 309 | vrgather_vi => 310
  end.

(** The enumerators as the source lists them. *)
Definition enumerators : list t :=
  [ illegal; lui; auipc; jal; jalr; beq; bne; blt; bge; bltu; bgeu; lb; lh;
    lw; lbu; lhu; sb; sh; sw; addi; slti; sltiu; xori; ori; andi; slli; srli;
    srai; add; sub; sll; slt; sltu; xor_; srl; sra; or_; and_; fence; fencei;
    ecall; ebreak; csrrw; csrrs; csrrc; csrrwi; csrrsi; csrrci; lwu; ld; sd;
    addiw; slliw; srliw; sraiw; addw; subw; sllw; srlw; sraw; mul; mulh;
    mulhsu; mulhu; div; divu; rem; remu; mulw; divw; divuw; remw; remuw;
    lr_w; sc_w; amoswap_w; amoadd_w; amoxor_w; amoand_w; amoor_w; amomin_w;
    amomax_w; amominu_w; amomaxu_w; lr_d; sc_d; amoswap_d; amoadd_d;
    amoxor_d; amoand_d; amoor_d; amomin_d; amomax_d; amominu_d; amomaxu_d;
    flw; fsw; fmadd_s; fmsub_s; fnmsub_s; fnmadd_s; fadd_s; fsub_s; fmul_s;
    fdiv_s; fsqrt_s; fsgnj_s; fsgnjn_s; fsgnjx_s; fmin_s; fmax_s; fcvt_w_s;
    fcvt_wu_s; fmv_x_w; feq_s; flt_s; fle_s; fclass_s; fcvt_s_w; fcvt_s_wu;
    fmv_w_x; fcvt_l_s; fcvt_lu_s; fcvt_s_l; fcvt_s_lu; fld; fsd; fmadd_d;
    fmsub_d; fnmsub_d; fnmadd_d; fadd_d; fsub_d; fmul_d; fdiv_d; fsqrt_d;
    fsgnj_d; fsgnjn_d; fsgnjx_d; fmin_d; fmax_d; fcvt_s_d; fcvt_d_s; feq_d;
    flt_d; fle_d; fclass_d; fcvt_w_d; fcvt_wu_d; fcvt_d_w; fcvt_d_wu;
    fcvt_l_d; fcvt_lu_d; fmv_x_d; fcvt_d_l; fcvt_d_lu; fmv_d_x; mret; uret;
    sret; wfi; sfence_vma; c_addi4spn; c_fld; c_lq; c_lw; c_flw; c_ld; c_fsd;
    c_sq; c_sw; c_fsw; c_sd; c_addi; c_jal; c_li; c_addi16sp; c_lui; c_srli;
    c_srli64; c_srai; c_srai64; c_andi; c_sub; c_xor; c_or; c_and; c_subw;
    c_addw; c_j; c_beqz; c_bnez; c_slli; c_slli64; c_fldsp; c_lwsp; c_flwsp;
    c_ldsp; c_jr; c_mv; c_ebreak; c_jalr; c_add; c_fsdsp; c_swsp; c_fswsp;
    c_addiw; c_sdsp; clz; ctz; pcnt; andn; orn; xnor; slo; sro; sloi; sroi;
    min; max; minu; maxu; rol; ror; rori; rev8; rev; pack; addwu; subwu;
    addiwu; sext_b; sext_h; addu_w; subu_w; slliu_w; packh; packu; packw;
    packuw; grev; grevi; gorc; gorci; shfl; shfli; unshfl; unshfli; sbset;
    sbclr; sbinv; sbext; sbseti; sbclri; sbinvi; sbexti; bdep; bext; bfp;
    clmul; clmulh; clmulr; sh1add; sh2add; sh3add; sh1addu_w; sh2addu_w;
    sh3addu_w; crc32_b; crc32_h; crc32_w; crc32_d; crc32c_b; crc32c_h;
    crc32c_w; crc32c_d; bmator; bmatxor; bmatflip; cmov; cmix; fsl; fsr;
    fsri; vadd_vv; vadd_vx; vadd_vi; vsub_vv; vsub_vx; vrsub_vx; vrsub_vi;
    vminu_vv; vminu_vx; vmin_vv; vmin_vx; vmaxu_vv; vmaxu_vx; vmax_vv;
    vmax_vx; vand_vv; vand_vx; vand_vi; vor_vv; vor_vx; vor_vi; vxor_vv;
    vxor_vx; vxor_vi; vrgather_vv; vrgather_vx; vrgather_vi ].

End InstId.

(** ** Ranges *)

(** The byte ranges [[a1, a1+n1)] and [[a2, a2+n2)] have a byte in common. *)
Definition ranges_overlap (a1 n1 a2 n2 : Z) : Prop :=
  exists x, a1 <= x < a1 + n1 /\ a2 <= x < a2 + n2.

(** A reservation made with typed arguments. *)
Definition typed_reservation (res : Reservation.t) : Prop :=
  is_size_t (Reservation.addr_ res) /\ 0 <= Reservation.size_ res < uint32_max.

(** What the invalidation functions may do to one reservation: the recorded
    address and size stay, and a valid flag is not gained. *)
Definition only_cleared (res res' : Reservation.t) : Prop :=
  Reservation.addr_ res' = Reservation.addr_ res /\
  Reservation.size_ res' = Reservation.size_ res /\
  (Reservation.valid_ res' = true -> Reservation.valid_ res = true).

(** ** A configuration to run the code on *)

Definition pma_none : Pma := mkPma false false false false false false.
Definition pma_ram : Pma := mkPma true true true false false false.
Definition pma_mmr : Pma := mkPma true true false true false false.
Definition pma_dccm : Pma := mkPma true true false false false true.

(** One MiB of memory in pages of 4 KiB: memory-mapped registers in
    [[0x1000, 0x2000)] with the write mask [0x0000ffff] on the word at
    [0x1000], a DCCM in [[0x2000, 0x3000)], plain memory elsewhere. *)
Definition demo_pmaMgr : PmaManager :=
  mkPmaManager
    (fun a =>
       if (a <? 0) || (0x100000 <=? a) then pma_none
       else if (0x1000 <=? a) && (a <? 0x2000) then pma_mmr
       else if (0x2000 <=? a) && (a <? 0x3000) then pma_dccm
       else pma_ram)
    (fun a => if (0x1000 <=? a) && (a <? 0x1004) then 0xffff else 0xffffffff).

(** The memory after construction and [setHartCount(2)]. *)
Definition demo : Memory :=
  setHartCount 2 (mkMemory 0x100000 ∅ [] [] demo_pmaMgr).

(** [demo] after [makeLr(0, 0x200, size)]. *)
Definition demo_lr (size : Z) : Memory :=
  set_reservations [Reservation.mk 0x200 size true; Reservation.init] demo.

(** ** The remaining accessors of [class Memory] *)

(** [checkWrite<T>]: the result carries the final contents of the reference
    parameter [value]. *)
Definition checkWrite (T : width) (address value : Z) (m : Memory) : ret Z :=
  let pma1 := getPma (pmaMgr_ m) address in
  if negb (isWrite pma1) then ret_false NoAccess
  else if misaligned T address
          && pma_differ pma1 (getPma (pmaMgr_ m) (last_byte T address))
  then ret_false Straddle
  else if isMemMappedReg pma1 then
    if decide (T ≠ W4) then ret_false BadRegister
    else if negb (Z.land address 3 =? 0) then ret_false BadRegister
    else ret_true (doRegisterMasking address value m)
  else ret_true value.

(** [readInstHalfWord]. *)
Definition readInstHalfWord (address : Z) (m : Memory) : ret Z :=
  let pma := getPma (pmaMgr_ m) address in
  if isExec pma then
    if negb (Z.land address 1 =? 0)
       && pma_differ pma (getPma (pmaMgr_ m) (size_t_add address 1))
    then ret_false Straddle
    else ret_true (load W2 address m)
  else ret_false NoAccess.

(** [readInstWord]. *)
Definition readInstWord (address : Z) (m : Memory) : ret Z :=
  let pma := getPma (pmaMgr_ m) address in
  if isExec pma then
    if negb (Z.land address 3 =? 0)
       && pma_differ pma (getPma (pmaMgr_ m) (size_t_add address 3))
    then ret_false Straddle
    else ret_true (load W4 address m)
  else ret_false NoAccess.

(** *** Pages and regions *)

(** The members [pageShift_], [regionShift_] and [regionMask_] are set by the
    constructor (Memory.cpp, not among the sources) and are taken as
    arguments; the shift counts are below 64. *)

(** [getPageIx]. *)
Definition getPageIx (pageShift_ addr : Z) : Z := Z.shiftr addr pageShift_.

(** [getPageStartAddr]: the left shift is a [size_t] shift. *)
Definition getPageStartAddr (pageShift_ addr : Z) : Z :=
  Z.shiftl (Z.shiftr addr pageShift_) pageShift_ mod size_t_max.

(** [getRegionIndex]. *)
Definition getRegionIndex (regionShift_ regionMask_ addr : Z) : Z :=
  Z.land (Z.shiftr addr regionShift_) regionMask_.

(** An executable register page, to run the instruction fetch on. *)
Definition pma_mmr_exec : Pma := mkPma true true true true false false.

Definition demo_exec_mmr : Memory :=
  setHartCount 2
    (mkMemory 0x100000 ∅ [] []
       (mkPmaManager
          (fun a => if (0x1000 <=? a) && (a <? 0x2000) then pma_mmr_exec
                    else getPma demo_pmaMgr a)
          (getMemMappedMask demo_pmaMgr))).

(** * Properties *)

(** ** Machine integers *)

Lemma size_t_sub_exact a b :
  is_size_t a -> is_size_t b -> b <= a -> size_t_sub a b = a - b.
Proof.
  unfold is_size_t, size_t_sub. intros Ha Hb Hle.
  apply Z.mod_small. lia.
Qed.

Lemma sizeof_bytes_of T : sizeof T = Z.of_nat (bytes_of T).
Proof. by destruct T. Qed.

Lemma sizeof_pos T : 0 < sizeof T.
Proof. destruct T; reflexivity. Qed.

Lemma land_fits_32 v mask : 0 <= v < 2 ^ 32 -> Z.land v mask mod 2 ^ 32 = Z.land v mask.
Proof.
  intros Hv.
  rewrite <- Z.land_ones by lia.
  rewrite <- Z.land_assoc, (Z.land_comm mask), Z.land_assoc.
  rewrite Z.land_ones by lia.
  by rewrite (Z.mod_small v) by lia.
Qed.

Lemma land_ones_fits T v : fits T v -> Z.land v (Z.ones (8 * sizeof T)) = v.
Proof.
  unfold fits. intros Hv.
  rewrite Z.land_ones by (pose proof (sizeof_pos T); lia).
  by apply Z.mod_small.
Qed.

(** ** The backing store *)

Lemma byte_at_insert d a b x :
  byte_at (<[a := x]> d) b = if decide (a = b) then x mod 256 else byte_at d b.
Proof.
  unfold byte_at. rewrite lookup_insert.
  by destruct (decide (a = b)).
Qed.

(** A store leaves the bytes below its first byte alone. *)
Lemma byte_at_store_le_below n : forall d a v b,
  b < a -> byte_at (store_le d a n v) b = byte_at d b.
Proof.
  induction n as [|n IH]; intros d a v b Hlt; simpl; [done|].
  rewrite IH by lia.
  rewrite byte_at_insert. destruct (decide (a = b)); [lia | done].
Qed.

(** Reading back the [n] bytes that were just stored gives the stored value,
    truncated to [n] bytes. *)
Lemma load_le_store_le n : forall d a v,
  load_le (store_le d a n v) a n = v mod 2 ^ (8 * Z.of_nat n).
Proof.
  induction n as [|n IH]; intros d a v.
  - simpl. by rewrite Z.mod_1_r.
  - cbn [load_le store_le].
    rewrite IH, byte_at_store_le_below by lia.
    rewrite byte_at_insert, decide_True by done.
    rewrite Z.mod_mod by lia.
    replace (8 * Z.of_nat (S n)) with (8 + 8 * Z.of_nat n) by lia.
    rewrite Z.pow_add_r by lia.
    change (2 ^ 8) with 256.
    rewrite Z.rem_mul_r by lia. done.
Qed.

Lemma load_store T a v m : fits T v -> load T a (store T a v m) = v.
Proof.
  unfold fits, load, store. intros Hv. simpl.
  rewrite load_le_store_le, <- sizeof_bytes_of.
  by apply Z.mod_small.
Qed.

(** ** What the accessors leave alone *)

Lemma store_pmaMgr T a v m : pmaMgr_ (store T a v m) = pmaMgr_ m.
Proof. done. Qed.

Lemma store_reservations T a v m : reservations_ (store T a v m) = reservations_ m.
Proof. done. Qed.

Lemma writeRegister_reservations h a v m :
  reservations_ (snd (writeRegister h a v m)) = reservations_ m.
Proof.
  unfold writeRegister.
  destruct (negb _); [done|]. by destruct (lastWriteData_ m !! h).
Qed.

Lemma write_reservations T h a v m :
  reservations_ (snd (write T h a v m)) = reservations_ m.
Proof.
  unfold write.
  repeat (case_match; try done); apply writeRegister_reservations.
Qed.

Lemma writeByte_reservations h a v m :
  reservations_ (snd (writeByte h a v m)) = reservations_ m.
Proof. unfold writeByte. by repeat (case_match; try done). Qed.

Lemma poke_reservations T a v m :
  reservations_ (snd (poke T a v m)) = reservations_ m.
Proof. unfold poke. by repeat (case_match; try done). Qed.

Lemma pokeByte_reservations a v m :
  reservations_ (snd (pokeByte a v m)) = reservations_ m.
Proof. unfold pokeByte. by repeat (case_match; try done). Qed.

Lemma clearLastWriteInfo_reservations h m m' :
  clearLastWriteInfo h m = Some m' -> reservations_ m' = reservations_ m.
Proof.
  unfold clearLastWriteInfo. intros H.
  destruct (lastWriteData_ m !! h); simplify_eq/=. done.
Qed.

(** ** The reservation table *)

(** The loop test on typed addresses, without the modular subtraction. *)
Lemma lr_hit_spec addr storeSize res :
  is_size_t addr -> is_size_t (Reservation.addr_ res) ->
  lr_hit addr storeSize res = true <->
  Reservation.addr_ res <= addr < Reservation.addr_ res + Reservation.size_ res \/
  addr < Reservation.addr_ res < addr + storeSize.
Proof.
  intros Ha Hr. unfold lr_hit.
  destruct (Z.leb_spec (Reservation.addr_ res) addr) as [Hle|Hgt]; simpl.
  - rewrite size_t_sub_exact by done.
    destruct (Z.ltb_spec (addr - Reservation.addr_ res) (Reservation.size_ res)).
    + split; [intros _; left; lia | done].
    + destruct (Z.ltb_spec addr (Reservation.addr_ res)); simpl; [lia|].
      split; [done | lia].
  - destruct (Z.ltb_spec addr (Reservation.addr_ res)); simpl; [|lia].
    rewrite size_t_sub_exact by (done || lia).
    rewrite Z.ltb_lt. lia.
Qed.

(** A store that overlaps the reserved range passes the loop test. *)
Lemma lr_hit_overlap addr storeSize res :
  is_size_t addr -> is_size_t (Reservation.addr_ res) ->
  ranges_overlap (Reservation.addr_ res) (Reservation.size_ res) addr storeSize ->
  lr_hit addr storeSize res = true.
Proof.
  intros Ha Hr (x & Hres & Hst).
  apply lr_hit_spec; [done..|]. lia.
Qed.

Lemma lr_step_only_cleared addr storeSize res :
  only_cleared res (lr_step addr storeSize res).
Proof.
  unfold lr_step, only_cleared.
  destruct (lr_hit addr storeSize res); simpl; [|done].
  repeat split; done.
Qed.

Lemma only_cleared_refl res : only_cleared res res.
Proof. by unfold only_cleared. Qed.

Lemma only_cleared_clear res : only_cleared res (Reservation.clear res).
Proof. unfold only_cleared; simpl. repeat split; done. Qed.

Lemma invalidateOtherHartLr_lookup h addr s m i :
  reservations_ (invalidateOtherHartLr h addr s m) !! i =
  (fun res => if decide (i = h) then res else lr_step addr s res)
    <$> reservations_ m !! i.
Proof. unfold invalidateOtherHartLr. simpl. by rewrite list_lookup_imap. Qed.

Lemma invalidateLrs_lookup addr s m i :
  reservations_ (invalidateLrs addr s m) !! i =
  lr_step addr s <$> reservations_ m !! i.
Proof. unfold invalidateLrs. simpl. by rewrite list_lookup_imap. Qed.

(** The accessors other than the reservation functions keep the rest of the
    memory; the reservation functions keep everything but the table. *)
Lemma invalidateOtherHartLr_frame h addr s m :
  let m' := invalidateOtherHartLr h addr s m in
  data_ m' = data_ m /\ lastWriteData_ m' = lastWriteData_ m /\
  pmaMgr_ m' = pmaMgr_ m /\ size_ m' = size_ m.
Proof. done. Qed.

Lemma invalidateLrs_frame addr s m :
  let m' := invalidateLrs addr s m in
  data_ m' = data_ m /\ lastWriteData_ m' = lastWriteData_ m /\
  pmaMgr_ m' = pmaMgr_ m /\ size_ m' = size_ m.
Proof. done. Qed.

(** C7 (as claimed, refuted): the reservation of hart 0 is at [0x200] with
    size 0. Hart 1 stores 4 bytes at [0x200], so the reserved address lies
    in the stored range [[0x200, 0x204)], yet [invalidateOtherHartLr] leaves
    the reservation valid: the first test needs [0 < size_], the second
    needs [addr < res.addr_]. *)
Lemma invalidateOtherHartLr_same_addr_size_0 :
  reservations_ (demo_lr 0) !! 0%nat = Some (Reservation.mk 0x200 0 true) /\
  0x200 <= 0x200 < 0x200 + 4 /\
  reservations_ (invalidateOtherHartLr 1 0x200 4 (demo_lr 0)) !! 0%nat
  = Some (Reservation.mk 0x200 0 true).
Proof. split; [reflexivity|]. split; [lia | reflexivity]. Qed.

(** C7 (amended): [invalidateOtherHartLr(h, addr, s)] clears the reservation
    of a hart [h' ≠ h] exactly when [addr] lies in
    [[res.addr, res.addr + res.size)] or [res.addr] lies strictly above
    [addr] and below [addr + s]; every other reservation, that of [h]
    included, is left as it is. *)
Theorem invalidateOtherHartLr_exact h addr s m h' res :
  is_size_t addr ->
  reservations_ m !! h' = Some res ->
  is_size_t (Reservation.addr_ res) ->
  reservations_ (invalidateOtherHartLr h addr s m) !! h' =
  Some (if decide (h' ≠ h /\
                   (Reservation.addr_ res <= addr
                      < Reservation.addr_ res + Reservation.size_ res \/
                    addr < Reservation.addr_ res < addr + s))
        then Reservation.clear res else res).
Proof.
  intros Ha Hres Hr.
  rewrite invalidateOtherHartLr_lookup, Hres. simpl. f_equal.
  pose proof (lr_hit_spec addr s res Ha Hr) as Hhit.
  unfold lr_step.
  destruct (decide (h' = h)) as [->|Hne].
  - rewrite decide_False; [done | tauto].
  - destruct (lr_hit addr s res).
    + rewrite decide_True; [done | tauto].
    + rewrite decide_False; [done|]. intros [_ H]. apply Hhit in H. done.
Qed.

Lemma invalidateOtherHartLr_exact_witness :
  reservations_ (invalidateOtherHartLr 1 0x202 4 (demo_lr 4)) !! 0%nat
  = Some (Reservation.mk 0x200 4 false).
Proof.
  apply (invalidateOtherHartLr_exact 1 0x202 4 (demo_lr 4) 0
           (Reservation.mk 0x200 4 true)).
  - unfold is_size_t, size_t_max. lia.
  - reflexivity.
  - unfold is_size_t, size_t_max. simpl. lia.
Defined.

(** ** Stores and reservations *)

(** C1 (as claimed, refuted): hart 0 holds the reservation [[0x200, 0x204)];
    hart 1 writes the word at [0x200]. The write succeeds and the
    reservation of hart 0 is still valid: [write] does not touch the
    reservation table. *)
Lemma write_keeps_other_hart_lr :
  makeLr 0 0x200 4 demo = Some (demo_lr 4) /\
  fst (write W4 1 0x200 1 (demo_lr 4)) = ret_true tt /\
  reservations_ (snd (write W4 1 0x200 1 (demo_lr 4))) !! 0%nat
  = Some (Reservation.mk 0x200 4 true) /\
  hasLr 0 0x200 (snd (write W4 1 0x200 1 (demo_lr 4))) = Some true.
Proof. repeat split; reflexivity. Qed.

(** C1 (amended): a successful [write(h, a, v)] of width [T] leaves every
    reservation, of [h] and of the other harts, as it was. The invalidation
    is the separate call [invalidateOtherHartLr(h, a, sizeof(T))]: made after
    the write, it invalidates the reservation of every hart [h' ≠ h] whose
    range overlaps [[a, a+T)] and leaves the reservation of [h] unchanged,
    overlapping or not. *)
Theorem write_then_invalidateOtherHartLr T h a v m m' :
  is_size_t a ->
  write T h a v m = (ret_true tt, m') ->
  reservations_ m' = reservations_ m /\
  forall h' res,
    reservations_ m !! h' = Some res ->
    is_size_t (Reservation.addr_ res) ->
    let after := reservations_ (invalidateOtherHartLr h a (sizeof T) m') in
    (h' ≠ h ->
     ranges_overlap (Reservation.addr_ res) (Reservation.size_ res) a (sizeof T) ->
     after !! h' = Some (Reservation.clear res)) /\
    (h' = h -> after !! h' = Some res).
Proof.
  intros Ha Hw.
  assert (reservations_ m' = reservations_ m) as Hrs.
  { by rewrite <- (write_reservations T h a v m), Hw. }
  split; [done|].
  intros h' res Hres Hr after. subst after.
  rewrite invalidateOtherHartLr_lookup, Hrs, Hres. simpl.
  split.
  - intros Hne Hov. rewrite decide_False by done.
    unfold lr_step. by rewrite lr_hit_overlap.
  - intros ->. by rewrite decide_True.
Qed.

Lemma write_then_invalidateOtherHartLr_witness :
  reservations_ (snd (write W4 1 0x200 1 (demo_lr 4))) = reservations_ (demo_lr 4) /\
  reservations_
    (invalidateOtherHartLr 1 0x200 (sizeof W4) (snd (write W4 1 0x200 1 (demo_lr 4))))
    !! 0%nat
  = Some (Reservation.mk 0x200 4 false).
Proof.
  assert (is_size_t 0x200) as Ha by (unfold is_size_t, size_t_max; lia).
  destruct (write_then_invalidateOtherHartLr W4 1 0x200 1 (demo_lr 4)
              (snd (write W4 1 0x200 1 (demo_lr 4))) Ha eq_refl) as [Hsame Hcl].
  split; [exact Hsame|].
  apply (Hcl 0%nat (Reservation.mk 0x200 4 true) eq_refl Ha).
  - discriminate.
  - exists 0x200. simpl. lia.
Defined.

(** C3 (as claimed, refuted): hart 0 holds the reservation [[0x200, 0x204)];
    the word at [0x200] is poked. The poke succeeds and the reservation is
    still valid: [poke] does not touch the reservation table. *)
Lemma poke_keeps_lr :
  fst (poke W4 0x200 1 (demo_lr 4)) = ret_true tt /\
  reservations_ (snd (poke W4 0x200 1 (demo_lr 4))) !! 0%nat
  = Some (Reservation.mk 0x200 4 true) /\
  hasLr 0 0x200 (snd (poke W4 0x200 1 (demo_lr 4))) = Some true.
Proof. repeat split; reflexivity. Qed.

(** C3 (amended): a successful [poke] of width [T] at [a] leaves every
    reservation as it was. The invalidation is the separate call
    [invalidateLrs(a, sizeof(T))]: made after the poke, it invalidates the
    reservation of every hart whose range overlaps [[a, a+T)]; no hart is
    exempt. *)
Theorem poke_then_invalidateLrs T a v m m' :
  is_size_t a ->
  poke T a v m = (ret_true tt, m') ->
  reservations_ m' = reservations_ m /\
  forall h res,
    reservations_ m !! h = Some res ->
    is_size_t (Reservation.addr_ res) ->
    ranges_overlap (Reservation.addr_ res) (Reservation.size_ res) a (sizeof T) ->
    reservations_ (invalidateLrs a (sizeof T) m') !! h = Some (Reservation.clear res).
Proof.
  intros Ha Hp.
  assert (reservations_ m' = reservations_ m) as Hrs.
  { by rewrite <- (poke_reservations T a v m), Hp. }
  split; [done|].
  intros h res Hres Hr Hov.
  rewrite invalidateLrs_lookup, Hrs, Hres. simpl.
  unfold lr_step. by rewrite lr_hit_overlap.
Qed.

Lemma poke_then_invalidateLrs_witness :
  reservations_ (snd (poke W4 0x202 1 (demo_lr 4))) = reservations_ (demo_lr 4) /\
  reservations_ (invalidateLrs 0x202 (sizeof W4) (snd (poke W4 0x202 1 (demo_lr 4))))
    !! 0%nat
  = Some (Reservation.mk 0x200 4 false).
Proof.
  assert (is_size_t 0x202) as Ha by (unfold is_size_t, size_t_max; lia).
  destruct (poke_then_invalidateLrs W4 0x202 1 (demo_lr 4)
              (snd (poke W4 0x202 1 (demo_lr 4))) Ha eq_refl) as [Hsame Hcl].
  split; [exact Hsame|].
  apply (Hcl 0%nat (Reservation.mk 0x200 4 true) eq_refl).
  - unfold is_size_t, size_t_max. simpl. lia.
  - exists 0x202. simpl. lia.
Defined.

(** ** Reservations are only ever cleared *)

Lemma invalidateOtherHartLr_only_cleared h addr s m :
  Forall2 only_cleared (reservations_ m)
    (reservations_ (invalidateOtherHartLr h addr s m)).
Proof.
  apply Forall2_same_length_lookup_2.
  - unfold invalidateOtherHartLr. simpl. by rewrite length_imap.
  - intros i res res' Hres. rewrite invalidateOtherHartLr_lookup, Hres. simpl.
    intros [= <-]. destruct (decide (i = h)).
    + apply only_cleared_refl.
    + apply lr_step_only_cleared.
Qed.

Lemma invalidateLrs_only_cleared addr s m :
  Forall2 only_cleared (reservations_ m) (reservations_ (invalidateLrs addr s m)).
Proof.
  apply Forall2_same_length_lookup_2.
  - unfold invalidateLrs. simpl. by rewrite length_imap.
  - intros i res res' Hres. rewrite invalidateLrs_lookup, Hres. simpl.
    intros [= <-]. apply lr_step_only_cleared.
Qed.

Lemma invalidateLr_only_cleared h m m' :
  invalidateLr h m = Some m' ->
  Forall2 only_cleared (reservations_ m) (reservations_ m').
Proof.
  unfold invalidateLr. intros H.
  destruct (reservations_ m !! h) as [res|] eqn:Hres; simplify_eq/=.
  rewrite <- (list_insert_id (reservations_ m) h res) at 1 by done.
  apply Forall2_insert.
  - apply Forall2_same_length_lookup_2; [done|].
    intros i x y Hx Hy. simplify_eq. apply only_cleared_refl.
  - apply only_cleared_clear.
Qed.

Lemma resize_to_lookup {A} n (d : A) l i x :
  resize_to n d l !! i = Some x -> l !! i = Some x \/ x = d.
Proof.
  unfold resize_to. intros H.
  apply lookup_app_Some in H as [H|[_ H]].
  - left. by apply lookup_take_Some in H as [H _].
  - right. by apply lookup_replicate in H as [-> _].
Qed.

(** C10: [invalidateLr], [invalidateOtherHartLr] and [invalidateLrs] keep
    the number of reservations and, for every hart, the recorded address and
    size, and they never turn an invalid reservation valid. [makeLr] sets
    the reservation of its hart valid; the stores, the pokes and
    [clearLastWriteInfo] leave the whole table as it is, and [setHartCount]
    keeps reservations or adds invalid ones, so no other operation makes a
    reservation valid. *)
Theorem reservations_only_cleared m :
  (forall h addr s,
     Forall2 only_cleared (reservations_ m)
       (reservations_ (invalidateOtherHartLr h addr s m))) /\
  (forall addr s,
     Forall2 only_cleared (reservations_ m) (reservations_ (invalidateLrs addr s m))) /\
  (forall h m',
     invalidateLr h m = Some m' ->
     Forall2 only_cleared (reservations_ m) (reservations_ m')) /\
  (forall h addr size m',
     makeLr h addr size m = Some m' ->
     reservations_ m' !! h = Some (Reservation.mk addr size true) /\
     forall h', h' ≠ h -> reservations_ m' !! h' = reservations_ m !! h') /\
  (forall T h a v, reservations_ (snd (write T h a v m)) = reservations_ m) /\
  (forall h a v, reservations_ (snd (writeByte h a v m)) = reservations_ m) /\
  (forall T a v, reservations_ (snd (poke T a v m)) = reservations_ m) /\
  (forall a v, reservations_ (snd (pokeByte a v m)) = reservations_ m) /\
  (forall h m', clearLastWriteInfo h m = Some m' -> reservations_ m' = reservations_ m) /\
  (forall count h res,
     reservations_ (setHartCount count m) !! h = Some res ->
     reservations_ m !! h = Some res \/ res = Reservation.init).
Proof.
  split; [intros; apply invalidateOtherHartLr_only_cleared|].
  split; [intros; apply invalidateLrs_only_cleared|].
  split; [intros h m'; apply invalidateLr_only_cleared|].
  split.
  { intros h addr size m'. unfold makeLr. intros H.
    destruct (reservations_ m !! h) as [res|] eqn:Hres; simplify_eq/=.
    split.
    - apply list_lookup_insert_eq. by eapply lookup_lt_Some.
    - intros h' Hne. by apply list_lookup_insert_ne. }
  split; [intros; apply write_reservations|].
  split; [intros; apply writeByte_reservations|].
  split; [intros; apply poke_reservations|].
  split; [intros; apply pokeByte_reservations|].
  split; [intros h m'; apply clearLastWriteInfo_reservations|].
  intros count h res. apply resize_to_lookup.
Qed.

Lemma reservations_only_cleared_witness :
  Forall2 only_cleared (reservations_ (demo_lr 4))
    [Reservation.mk 0x200 4 false; Reservation.init] /\
  reservations_ (set_reservations [Reservation.mk 0x300 8 true; Reservation.init] demo)
    !! 0%nat = Some (Reservation.mk 0x300 8 true) /\
  reservations_ (demo_lr 4) = reservations_ (demo_lr 4).
Proof.
  destruct (reservations_only_cleared (demo_lr 4))
    as (_ & _ & Hinv & Hmk & _ & _ & _ & _ & Hclr & _).
  split; [|split].
  - exact (Hinv 0%nat _ eq_refl).
  - exact (proj1 (Hmk 0%nat 0x300 8 _ eq_refl)).
  - exact (Hclr 0%nat _ eq_refl).
Defined.

(** ** Misaligned accesses *)

(** C4 (as claimed, refuted): the half-word at [0x2fff] has its first byte in
    the DCCM page and its last byte in a plain page, two mapped pages with
    different attributes. [write] refuses it at the straddle check, [poke]
    accepts it: the pages differ, but the last one is mapped. *)
Lemma poke_straddles_differing_pmas :
  misaligned W2 0x2fff = true /\
  getPma (pmaMgr_ demo) 0x2fff = pma_dccm /\
  getPma (pmaMgr_ demo) (last_byte W2 0x2fff) = pma_ram /\
  pma_dccm ≠ pma_ram /\
  fst (write W2 0 0x2fff 0x1234 demo) = ret_false Straddle /\
  fst (poke W2 0x2fff 0x1234 demo) = ret_true tt.
Proof. repeat split; try reflexivity. discriminate. Qed.

(** C4 (amended): for a misaligned access of width [T] at [a] whose first
    byte passes the gating attribute check, [read] and [write] reject the
    access at the straddle check if and only if the attributes of the first
    byte and of the last byte (at [a + T - 1]) differ as records; [poke]
    rejects it there if and only if the page of the last byte is unmapped. *)
Theorem straddle_rule T a m :
  misaligned T a = true ->
  let pma1 := getPma (pmaMgr_ m) a in
  let pma2 := getPma (pmaMgr_ m) (last_byte T a) in
  (isRead pma1 = true ->
   read T a m = ret_false Straddle <-> pma1 ≠ pma2) /\
  (isWrite pma1 = true ->
   forall h v, fst (write T h a v m) = ret_false Straddle <-> pma1 ≠ pma2) /\
  (isMapped pma1 = true ->
   forall v, fst (poke T a v m) = ret_false Straddle <-> isMapped pma2 = false).
Proof.
  intros Hmis pma1 pma2. repeat split.
  - unfold read. fold pma1 pma2. rewrite H, Hmis. simpl. unfold pma_differ.
    case_bool_decide as Hd; [done|].
    unfold readRegister. repeat case_match; done.
  - unfold read. fold pma1 pma2. rewrite H, Hmis. simpl. unfold pma_differ.
    intros Hne. by rewrite bool_decide_true.
  - unfold write. fold pma1 pma2. rewrite H, Hmis. simpl. unfold pma_differ.
    case_bool_decide as Hd; [done|].
    unfold writeRegister. repeat case_match; done.
  - unfold write. fold pma1 pma2. rewrite H, Hmis. simpl. unfold pma_differ.
    intros Hne. by rewrite bool_decide_true.
  - unfold poke. fold pma1 pma2. rewrite H, Hmis. simpl.
    destruct (isMapped pma2); [|done]. simpl.
    repeat case_match; done.
  - unfold poke. fold pma1 pma2. rewrite H, Hmis. simpl.
    intros ->. done.
Qed.

Lemma straddle_rule_witness :
  (read W2 0x2fff demo = ret_false Straddle <-> pma_dccm ≠ pma_ram) /\
  (fst (write W2 0 0x2fff 0x1234 demo) = ret_false Straddle <-> pma_dccm ≠ pma_ram) /\
  (fst (poke W2 0x2fff 0x1234 demo) = ret_false Straddle <-> isMapped pma_ram = false).
Proof.
  destruct (straddle_rule W2 0x2fff demo eq_refl) as (Hr & Hw & Hp).
  split; [|split].
  - exact (Hr eq_refl).
  - exact (Hw eq_refl 0%nat 0x1234).
  - exact (Hp eq_refl 0x1234).
Defined.

(** ** Memory-mapped registers *)

(** C6: on a page with the memory-mapped register attribute, a read that
    succeeds has width [uint32_t], a write or poke that succeeds has width
    [uint32_t] and a word-aligned address, the byte accessors fail, and every
    access of another width or at an address that is not word-aligned
    returns false. *)
Theorem mmr_access_rules a m :
  isMemMappedReg (getPma (pmaMgr_ m) a) = true ->
  (forall T, returns_true (read T a m) -> T = W4) /\
  (forall T h v, returns_true (fst (write T h a v m)) -> T = W4 /\ Z.land a 3 = 0) /\
  (forall T v, returns_true (fst (poke T a v m)) -> T = W4 /\ Z.land a 3 = 0) /\
  returns_false (readByte a m) /\
  (forall h v, returns_false (fst (writeByte h a v m))) /\
  (forall v, returns_false (fst (pokeByte a v m))) /\
  (forall T, T ≠ W4 \/ Z.land a 3 ≠ 0 ->
     returns_false (read T a m) /\
     (forall h v, returns_false (fst (write T h a v m))) /\
     (forall v, returns_false (fst (poke T a v m)))).
Proof.
  intros Hreg.
  assert (forall T, T ≠ W4 \/ Z.land a 3 ≠ 0 -> returns_false (read T a m)) as Hread.
  { intros T HT. unfold read, readRegister. rewrite Hreg.
    repeat case_match; simpl; try done.
    destruct HT as [HT|HT]; [done|].
    match goal with H : negb _ = false |- _ => apply negb_false_iff, Z.eqb_eq in H end.
    done. }
  assert (forall T h v, T ≠ W4 \/ Z.land a 3 ≠ 0 ->
            returns_false (fst (write T h a v m))) as Hwrite.
  { intros T h v HT. unfold write, writeRegister. rewrite Hreg.
    repeat case_match; simpl; try done;
      destruct HT as [HT|HT]; try done;
      match goal with H : negb _ = false |- _ => apply negb_false_iff, Z.eqb_eq in H end;
      done. }
  assert (forall T v, T ≠ W4 \/ Z.land a 3 ≠ 0 ->
            returns_false (fst (poke T a v m))) as Hpoke.
  { intros T v HT. unfold poke. rewrite Hreg.
    repeat case_match; simpl; try done;
      destruct HT as [HT|HT]; try done;
      match goal with H : negb _ = false |- _ => apply negb_false_iff, Z.eqb_eq in H end;
      done. }
  split.
  { intros T Hok. destruct (decide (T = W4)) as [|Hne]; [done|].
    specialize (Hread T (or_introl Hne)). by destruct (read T a m). }
  split.
  { intros T h v Hok.
    destruct (decide (T = W4)) as [->|Hne], (decide (Z.land a 3 = 0)) as [Hal|Hal];
      try done;
      [specialize (Hwrite W4 h v (or_intror Hal))
      |specialize (Hwrite T h v (or_introl Hne))
      |specialize (Hwrite T h v (or_introl Hne))];
      by destruct (fst (write _ h a v m)). }
  split.
  { intros T v Hok.
    destruct (decide (T = W4)) as [->|Hne], (decide (Z.land a 3 = 0)) as [Hal|Hal];
      try done;
      [specialize (Hpoke W4 v (or_intror Hal))
      |specialize (Hpoke T v (or_introl Hne))
      |specialize (Hpoke T v (or_introl Hne))];
      by destruct (fst (poke _ a v m)). }
  split; [unfold readByte; rewrite Hreg; by case_match|].
  split; [intros h v; unfold writeByte; rewrite Hreg; by case_match|].
  split; [intros v; unfold pokeByte; rewrite Hreg; by case_match|].
  intros T HT. split; [by apply Hread|]. split; intros; [by apply Hwrite | by apply Hpoke].
Qed.

Lemma mmr_access_rules_witness :
  returns_false (readByte 0x1000 demo) /\
  returns_false (read W2 0x1000 demo) /\
  returns_false (fst (write W8 0 0x1000 1 demo)) /\
  returns_false (fst (poke W4 0x1002 1 demo)).
Proof.
  destruct (mmr_access_rules 0x1000 demo eq_refl) as (_ & _ & _ & Hb & _ & _ & Hw).
  destruct (mmr_access_rules 0x1002 demo eq_refl) as (_ & _ & _ & _ & _ & _ & Hw').
  assert (W2 ≠ W4) as H2 by discriminate.
  assert (W8 ≠ W4) as H8 by discriminate.
  assert (Z.land 0x1002 3 ≠ 0) as Hal by discriminate.
  split; [exact Hb|].
  split; [exact (proj1 (Hw W2 (or_introl H2)))|].
  split; [exact (proj1 (proj2 (Hw W8 (or_introl H8))) 0%nat 1)|].
  exact (proj2 (proj2 (Hw' W4 (or_intror Hal))) 1).
Defined.

(** ** Failed stores *)

(** C8: a [write] or [poke] (and a [writeByte] or [pokeByte]) that returns
    false leaves the memory as it was: the backing store, the last-write slot
    of every hart and everything else. *)
Theorem failed_store_no_effect T h a v m :
  (returns_false (fst (write T h a v m)) -> snd (write T h a v m) = m) /\
  (returns_false (fst (poke T a v m)) -> snd (poke T a v m) = m) /\
  (returns_false (fst (writeByte h a v m)) -> snd (writeByte h a v m) = m) /\
  (returns_false (fst (pokeByte a v m)) -> snd (pokeByte a v m) = m).
Proof.
  repeat split.
  - unfold write, writeRegister. repeat case_match; simpl; done.
  - unfold poke. repeat case_match; simpl; done.
  - unfold writeByte. repeat case_match; simpl; done.
  - unfold pokeByte. repeat case_match; simpl; done.
Qed.

Lemma failed_store_no_effect_witness :
  snd (write W2 0 0x2fff 0x1234 demo) = demo /\
  snd (poke W4 0x1002 0x1234 demo) = demo /\
  snd (writeByte 0 0x1000 0x12 demo) = demo /\
  snd (pokeByte 0x100000 0x12 demo) = demo.
Proof.
  split; [|split; [|split]].
  - exact (proj1 (failed_store_no_effect W2 0 0x2fff 0x1234 demo) I).
  - exact (proj1 (proj2 (failed_store_no_effect W4 0 0x1002 0x1234 demo)) I).
  - exact (proj1 (proj2 (proj2 (failed_store_no_effect W1 0 0x1000 0x12 demo))) I).
  - exact (proj2 (proj2 (proj2 (failed_store_no_effect W1 0 0x100000 0x12 demo))) I).
Defined.

(** ** Write, then read *)

#[local] Arguments load_le : simpl never.
#[local] Arguments store_le : simpl never.

Lemma land_fits_W4 v mask : fits W4 v -> fits W4 (Z.land v mask).
Proof.
  unfold fits. simpl. intros Hv.
  rewrite <- (land_fits_32 v mask) by done.
  apply Z.mod_pos_bound. lia.
Qed.

(** C5: at an address [a] below the memory size whose page is readable and
    writable, for an access that is aligned or does not straddle pages of
    different attributes and that, on a memory-mapped register page, is a
    word access at a word-aligned address, [write(a, v)] followed by
    [read(a)] of the same width returns [v & mask(a)]: the mask is the write
    mask of the word for a register page and all ones otherwise. The writing
    hart is one of the configured harts and [v] is a value of the width. *)
Theorem write_then_read T h a v m :
  let pma1 := getPma (pmaMgr_ m) a in
  0 <= a < size_ m ->
  (h < length (lastWriteData_ m))%nat ->
  fits T v ->
  isRead pma1 = true ->
  isWrite pma1 = true ->
  misaligned T a = false \/ pma1 = getPma (pmaMgr_ m) (last_byte T a) ->
  (isMemMappedReg pma1 = true -> T = W4 /\ Z.land a 3 = 0) ->
  exists m',
    write T h a v m = (ret_true tt, m') /\
    read T a m' =
    ret_true (Z.land v (if isMemMappedReg pma1 then getMemoryMappedMask a m
                        else Z.ones (8 * sizeof T))).
Proof.
  intros pma1 _ Hh Hv Hrd Hwr Hstr Hreg.
  apply lookup_lt_is_Some_2 in Hh as [lwd Hlwd].
  assert (misaligned T a && pma_differ pma1 (getPma (pmaMgr_ m) (last_byte T a))
          = false) as Hchk.
  { destruct Hstr as [->| <-]; [done|].
    unfold pma_differ. rewrite bool_decide_false by tauto.
    apply andb_false_r. }
  unfold write. fold pma1. rewrite Hwr, Hchk. simpl.
  destruct (isMemMappedReg pma1) eqn:Hmmr.
  - destruct Hreg as [-> Hal]; [done|].
    rewrite decide_False by tauto.
    unfold writeRegister. rewrite Hal, Hlwd. simpl.
    eexists. split; [reflexivity|].
    unfold read. simpl. fold pma1. rewrite Hrd, Hchk, Hmmr. simpl.
    unfold readRegister. rewrite Hal. simpl. f_equal.
    unfold load. simpl. rewrite load_le_store_le.
    apply Z.mod_small.
    apply (land_fits_W4 v (getMemoryMappedMask a m)) in Hv. exact Hv.
  - rewrite Hlwd.
    eexists. split; [reflexivity|].
    unfold read. simpl. fold pma1. rewrite Hrd, Hchk, Hmmr. simpl. f_equal.
    rewrite land_ones_fits by done.
    unfold load. simpl. rewrite load_le_store_le, <- sizeof_bytes_of.
    by apply Z.mod_small.
Qed.

Lemma write_then_read_witness :
  exists m',
    write W4 0 0x1000 0xaaaabbbb demo = (ret_true tt, m') /\
    read W4 0x1000 m' = ret_true 0x0000bbbb.
Proof.
  apply (write_then_read W4 0 0x1000 0xaaaabbbb demo).
  - simpl. lia.
  - simpl. lia.
  - unfold fits. simpl. lia.
  - reflexivity.
  - reflexivity.
  - left. reflexivity.
  - intros _. split; reflexivity.
Defined.

(** ** The last-write recorder *)

(** After a successful write outside the register pages the slot of the
    writing hart holds the size, the address, the written value and the
    value that was in memory before; both accessors report the written
    value. *)
Lemma last_write_after_write T h a v m m' addr0 value0 :
  isMemMappedReg (getPma (pmaMgr_ m) a) = false ->
  write T h a v m = (ret_true tt, m') ->
  lastWriteData_ m' !! h = Some (LastWriteData.mk (sizeof T) a v (load T a m)) /\
  getLastWriteNewValue h addr0 value0 m' = Some (sizeof T, a, v) /\
  getLastWriteOldValue h addr0 value0 m' = Some (sizeof T, a, v).
Proof.
  intros Hreg. unfold write. rewrite Hreg.
  destruct (negb _); [done|]. destruct (_ && _); [done|].
  destruct (lastWriteData_ m !! h) as [lwd|] eqn:Hlwd; [|done].
  intros [= <-].
  set (lwd' := LastWriteData.mk (sizeof T) a v (load T a m)).
  set (m2 := store T a v (set_lastWriteData (<[h := lwd']> (lastWriteData_ m)) m)).
  assert (lastWriteData_ m2 !! h = Some lwd') as Hslot.
  { simpl. apply list_lookup_insert_eq. by eapply lookup_lt_Some. }
  split; [done|].
  unfold getLastWriteNewValue, getLastWriteOldValue. rewrite Hslot. simpl.
  assert ((sizeof T =? 0) = false) as -> by (destruct T; reflexivity).
  done.
Qed.

(** C2 (code at the failing input): the word at [0x200] is 0 and hart 0
    writes [0xdeadbeef] there. The slot records the prior value 0 in
    [prevValue_], [getLastWriteNewValue] returns [(4, 0x200, 0xdeadbeef)],
    and [getLastWriteOldValue] returns the same triple, the new value in
    place of the prior one. *)
Theorem getLastWriteOldValue_returns_new_value :
  read W4 0x200 demo = ret_true 0 /\
  isMemMappedReg (getPma (pmaMgr_ demo) 0x200) = false /\
  fst (write W4 0 0x200 0xdeadbeef demo) = ret_true tt /\
  (LastWriteData.prevValue_ <$>
     lastWriteData_ (snd (write W4 0 0x200 0xdeadbeef demo)) !! 0%nat) = Some 0 /\
  getLastWriteNewValue 0 0 0 (snd (write W4 0 0x200 0xdeadbeef demo))
  = Some (4, 0x200, 0xdeadbeef) /\
  getLastWriteOldValue 0 0 0 (snd (write W4 0 0x200 0xdeadbeef demo))
  = Some (4, 0x200, 0xdeadbeef).
Proof. repeat split; reflexivity. Qed.

(** ** Instruction identities *)

(** C9: [illegal] is the first enumerator and has the least integer, 0;
    [maxId] is [vrgather_vi], the last enumerator; the integer of an
    enumerator is its position in the declaration, and every identity lies
    between [illegal] and [maxId]. *)
Theorem InstId_illegal_first_maxId_last :
  head InstId.enumerators = Some InstId.illegal /\
  last InstId.enumerators = Some InstId.vrgather_vi /\
  InstId.maxId = InstId.vrgather_vi /\
  (forall id, InstId.enumerators !! Z.to_nat (InstId.value id) = Some id) /\
  (forall id, id = InstId.illegal \/ InstId.value InstId.illegal < InstId.value id) /\
  (forall id, InstId.value InstId.illegal <= InstId.value id
              <= InstId.value InstId.maxId).
Proof.
  split; [reflexivity|]. split; [reflexivity|]. split; [reflexivity|].
  split; [by intros []|].
  split.
  - intros []; (by left) || (by right).
  - intros []; by vm_compute.
Qed.

(** * Further properties of the accessors *)

(** ** Bytes and little-endian values *)

Lemma load_le_S d a k : load_le d a (S k) = byte_at d a + 256 * load_le d (a + 1) k.
Proof. reflexivity. Qed.

Lemma store_le_S d a k v :
  store_le d a (S k) v = store_le (<[a := v mod 256]> d) (a + 1) k (v / 256).
Proof. reflexivity. Qed.

Lemma byte_at_range d a : 0 <= byte_at d a < 256.
Proof. unfold byte_at. apply Z.mod_pos_bound. lia. Qed.

Lemma load_le_range n : forall d a, 0 <= load_le d a n < 2 ^ (8 * Z.of_nat n).
Proof.
  induction n as [|n IH]; intros d a.
  - simpl. change (load_le d a 0) with 0. lia.
  - rewrite load_le_S.
    replace (8 * Z.of_nat (S n)) with (8 + 8 * Z.of_nat n) by lia.
    rewrite Z.pow_add_r by lia. change (2 ^ 8) with 256.
    pose proof (byte_at_range d a). pose proof (IH d (a + 1)). nia.
Qed.

Lemma load_fits T a m : fits T (load T a m).
Proof. unfold fits, load. rewrite sizeof_bytes_of. apply load_le_range. Qed.

(** A store leaves every byte outside the stored range alone. *)
Lemma byte_at_store_le_outside n : forall d a v b,
  b < a \/ a + Z.of_nat n <= b -> byte_at (store_le d a n v) b = byte_at d b.
Proof.
  induction n as [|n IH]; intros d a v b Hout; [done|].
  rewrite store_le_S, IH by lia.
  rewrite byte_at_insert. destruct (decide (a = b)); [lia | done].
Qed.

(** A load depends on the bytes of its range only. *)
Lemma load_le_ext n : forall d d' a,
  (forall b, a <= b < a + Z.of_nat n -> byte_at d b = byte_at d' b) ->
  load_le d a n = load_le d' a n.
Proof.
  induction n as [|n IH]; intros d d' a Hsame; [done|].
  rewrite !load_le_S, (Hsame a) by lia.
  rewrite (IH d d' (a + 1)); [done|].
  intros b Hb. apply Hsame. lia.
Qed.

(** Concatenation of loads: the low [n] bytes, then the next [k] bytes. *)
Lemma load_le_app n : forall d a k,
  load_le d a (n + k) =
  load_le d a n + 2 ^ (8 * Z.of_nat n) * load_le d (a + Z.of_nat n) k.
Proof.
  induction n as [|n IH]; intros d a k.
  - change (load_le d a 0) with 0. simpl (0 + k)%nat.
    rewrite Z.add_0_r. simpl. by destruct (load_le d a k).
  - change (S n + k)%nat with (S (n + k)). rewrite !load_le_S, IH.
    replace (8 * Z.of_nat (S n)) with (8 + 8 * Z.of_nat n) by lia.
    rewrite Z.pow_add_r by lia. change (2 ^ 8) with 256.
    replace (a + 1 + Z.of_nat n) with (a + Z.of_nat (S n)) by lia.
    ring.
Qed.

Lemma misaligned_W1 a : misaligned W1 a = false.
Proof. unfold misaligned. simpl. by rewrite Z.land_0_r. Qed.

(** ** When a data read succeeds *)

(** The success of [read<T>], case by case. *)
Lemma read_true_cases T a m v :
  let pma1 := getPma (pmaMgr_ m) a in
  read T a m = ret_true v <->
  isRead pma1 = true /\
  (misaligned T a = true -> pma1 = getPma (pmaMgr_ m) (last_byte T a)) /\
  (isMemMappedReg pma1 = true -> T = W4 /\ Z.land a 3 = 0) /\
  v = load T a m.
Proof.
  intros pma1. unfold read, readRegister, pma_differ. fold pma1.
  destruct (isRead pma1); simpl; [|intuition congruence].
  destruct (misaligned T a); simpl.
  - case_bool_decide as Hd; simpl; [intuition congruence|].
    destruct (isMemMappedReg pma1); [|intuition congruence].
    destruct (decide (T = W4)) as [->|]; [|intuition congruence].
    destruct (Z.eqb_spec (Z.land a 3) 0); simpl; intuition congruence.
  - destruct (isMemMappedReg pma1); [|intuition congruence].
    destruct (decide (T = W4)) as [->|]; [|intuition congruence].
    destruct (Z.eqb_spec (Z.land a 3) 0); simpl; intuition congruence.
Qed.


(** X1: [read<T>] returns true exactly when the page of the first byte is
    readable, a misaligned access has the same attributes on its last byte,
    and a register page is read as an aligned word; the value it delivers is
    then the little-endian value of the [sizeof(T)] bytes at the address. *)
Theorem read_true_iff T a m v :
  let pma1 := getPma (pmaMgr_ m) a in
  read T a m = ret_true v <->
  isRead pma1 = true /\
  (misaligned T a = true -> pma1 = getPma (pmaMgr_ m) (last_byte T a)) /\
  (isMemMappedReg pma1 = true -> T = W4 /\ Z.land a 3 = 0) /\
  v = load T a m.
Proof. apply read_true_cases. Qed.

Lemma read_true_iff_witness :
  read W2 0x2001 demo = ret_true 0.
Proof.
  apply (read_true_iff W2 0x2001 demo 0).
  split; [reflexivity|]. split; [reflexivity|]. split; [discriminate|reflexivity].
Defined.

Lemma read_true_load T a m v : read T a m = ret_true v -> v = load T a m.
Proof. intros H. by apply read_true_cases in H as (_ & _ & _ & ->). Qed.

Lemma readInstWord_true_load a m v : readInstWord a m = ret_true v -> v = load W4 a m.
Proof. unfold readInstWord. repeat case_match; congruence. Qed.

Lemma readInstHalfWord_true_load a m v :
  readInstHalfWord a m = ret_true v -> v = load W2 a m.
Proof. unfold readInstHalfWord. repeat case_match; congruence. Qed.

Lemma readByte_read_W1 a m : readByte a m = read W1 a m.
Proof.
  unfold readByte, read. rewrite misaligned_W1. simpl.
  repeat case_match; try done.
  unfold load. simpl. rewrite load_le_S. change (load_le _ _ 0) with 0.
  f_equal. lia.
Qed.

(** X2: a value delivered by [read<T>], [readByte], [readInstHalfWord] or
    [readInstWord] is a value of the width that was read. *)
Theorem read_value_fits a m v :
  (forall T, read T a m = ret_true v -> fits T v) /\
  (readByte a m = ret_true v -> fits W1 v) /\
  (readInstHalfWord a m = ret_true v -> fits W2 v) /\
  (readInstWord a m = ret_true v -> fits W4 v).
Proof.
  split; [|split; [|split]].
  - intros T H. apply read_true_load in H as ->. apply load_fits.
  - rewrite readByte_read_W1. intros H. apply read_true_load in H as ->. apply load_fits.
  - intros H. apply readInstHalfWord_true_load in H as ->. apply load_fits.
  - intros H. apply readInstWord_true_load in H as ->. apply load_fits.
Qed.

Lemma read_value_fits_witness :
  read W4 0x200 demo = ret_true 0 /\ fits W4 0 /\
  readInstHalfWord 0x200 demo = ret_true 0 /\ fits W2 0.
Proof.
  destruct (read_value_fits 0x200 demo 0) as (Hr & _ & Hh & _).
  split; [reflexivity|]. split; [exact (Hr W4 eq_refl)|].
  split; [reflexivity | exact (Hh eq_refl)].
Defined.

Lemma load_W1 a m : load W1 a m = byte_at (data_ m) a.
Proof. unfold load. simpl. rewrite load_le_S. change (load_le _ _ 0) with 0. lia. Qed.

Lemma last_byte_W4 a : last_byte W4 a = size_t_add a 3.
Proof.
  unfold last_byte, size_t_sub, size_t_add. simpl.
  rewrite Zminus_mod_idemp_l. f_equal. lia.
Qed.

Lemma last_byte_W2 a : last_byte W2 a = size_t_add a 1.
Proof.
  unfold last_byte, size_t_sub, size_t_add. simpl.
  rewrite Zminus_mod_idemp_l. f_equal. lia.
Qed.

(** ** The byte accessors *)

(** X3: [readByte], [writeByte] and [pokeByte] behave exactly as [read],
    [write] and [poke] instantiated at [uint8_t]: same result, same memory
    afterwards. *)
Theorem byte_accessors_agree h a v m :
  readByte a m = read W1 a m /\
  writeByte h a v m = write W1 h a v m /\
  pokeByte a v m = poke W1 a v m.
Proof.
  split; [apply readByte_read_W1|]. split.
  - unfold writeByte, write. rewrite misaligned_W1, load_W1. simpl.
    repeat case_match; done.
  - unfold pokeByte, poke. rewrite misaligned_W1. simpl.
    repeat case_match; done.
Qed.

(** ** What a store changes *)

Lemma write_pmaMgr T h a v m : pmaMgr_ (snd (write T h a v m)) = pmaMgr_ m.
Proof. unfold write, writeRegister. by repeat case_match. Qed.

Lemma poke_pmaMgr T a v m : pmaMgr_ (snd (poke T a v m)) = pmaMgr_ m.
Proof. unfold poke. by repeat case_match. Qed.

(** The backing store after a [write] or a [poke]: untouched, or the old one
    with some value stored at the address. *)
Lemma not_ne_W4 T : ¬ T ≠ W4 -> T = W4.
Proof. intros H. destruct T; try done; exfalso; by apply H. Qed.

Lemma write_data T h a v m :
  data_ (snd (write T h a v m)) = data_ m \/
  exists v', data_ (snd (write T h a v m)) = store_le (data_ m) a (bytes_of T) v'.
Proof.
  unfold write, writeRegister.
  repeat case_match; simpl; try (by left);
    try match goal with H : ¬ ?T ≠ W4 |- _ => pose proof (not_ne_W4 T H); subst T end;
    right; eexists; reflexivity.
Qed.

Lemma poke_data T a v m :
  data_ (snd (poke T a v m)) = data_ m \/
  exists v', data_ (snd (poke T a v m)) = store_le (data_ m) a (bytes_of T) v'.
Proof.
  unfold poke.
  repeat case_match; simpl; try (by left); right; eexists; reflexivity.
Qed.

Lemma write_byte_outside T h a v m b :
  b < a \/ a + sizeof T <= b ->
  byte_at (data_ (snd (write T h a v m))) b = byte_at (data_ m) b.
Proof.
  intros Hout. rewrite sizeof_bytes_of in Hout.
  destruct (write_data T h a v m) as [->|[v' ->]]; [done|].
  by apply byte_at_store_le_outside.
Qed.

Lemma poke_byte_outside T a v m b :
  b < a \/ a + sizeof T <= b ->
  byte_at (data_ (snd (poke T a v m))) b = byte_at (data_ m) b.
Proof.
  intros Hout. rewrite sizeof_bytes_of in Hout.
  destruct (poke_data T a v m) as [->|[v' ->]]; [done|].
  by apply byte_at_store_le_outside.
Qed.

(** X4: whatever its outcome, a [write] or [poke] of width [T] at [a] changes
    no byte of the backing store outside [[a, a+T)]. *)
Theorem store_is_local T h a v m b :
  b < a \/ a + sizeof T <= b ->
  byte_at (data_ (snd (write T h a v m))) b = byte_at (data_ m) b /\
  byte_at (data_ (snd (poke T a v m))) b = byte_at (data_ m) b.
Proof.
  intros Hout. split; [by apply write_byte_outside | by apply poke_byte_outside].
Qed.

Lemma store_is_local_witness :
  byte_at (data_ (snd (write W4 0 0x200 0xdeadbeef demo))) 0x204
  = byte_at (data_ demo) 0x204 /\
  byte_at (data_ (snd (poke W4 0x200 0xdeadbeef demo))) 0x204
  = byte_at (data_ demo) 0x204.
Proof.
  apply (store_is_local W4 0 0x200 0xdeadbeef demo 0x204).
  right. simpl. lia.
Defined.

Lemma read_ext T a m m' :
  pmaMgr_ m' = pmaMgr_ m -> load T a m' = load T a m -> read T a m' = read T a m.
Proof.
  intros Hp Hl. unfold read. rewrite Hp.
  repeat case_match; try done; subst; unfold readRegister; by rewrite Hl.
Qed.

Lemma load_outside T' a' m m' T a :
  a' + sizeof T' <= a \/ a + sizeof T <= a' ->
  (forall b, b < a \/ a + sizeof T <= b -> byte_at (data_ m') b = byte_at (data_ m) b) ->
  load T' a' m' = load T' a' m.
Proof.
  intros Hdis Hsame. unfold load. apply load_le_ext.
  intros b Hb. rewrite <- sizeof_bytes_of in Hb. apply Hsame. lia.
Qed.

(** X5: a [write] or [poke] of width [T] at [a] does not change what a data
    read of a range disjoint from [[a, a+T)] returns. *)
Theorem disjoint_read_unchanged T h a v m T' a' :
  a' + sizeof T' <= a \/ a + sizeof T <= a' ->
  read T' a' (snd (write T h a v m)) = read T' a' m /\
  read T' a' (snd (poke T a v m)) = read T' a' m.
Proof.
  intros Hdis. split.
  - apply read_ext; [apply write_pmaMgr|].
    apply (load_outside T' a' m _ T a Hdis).
    intros b Hb. by apply write_byte_outside.
  - apply read_ext; [apply poke_pmaMgr|].
    apply (load_outside T' a' m _ T a Hdis).
    intros b Hb. by apply poke_byte_outside.
Qed.

Lemma disjoint_read_unchanged_witness :
  read W2 0x1fe (snd (write W4 0 0x200 0xdeadbeef demo)) = read W2 0x1fe demo /\
  read W2 0x1fe (snd (poke W4 0x200 0xdeadbeef demo)) = read W2 0x1fe demo.
Proof.
  apply (disjoint_read_unchanged W4 0 0x200 0xdeadbeef demo W2 0x1fe).
  left. simpl. lia.
Defined.

(** ** The dry run *)

(** X6: for a configured hart, [checkWrite] predicts [write]. When
    [checkWrite] returns false, [write] returns false at the same check and
    changes nothing. When [checkWrite] returns true with the value [v'] in
    its reference parameter, [write] returns true, stores [v'] at the
    address and records [v'] with the prior content in the last-write slot
    of the hart. *)
Theorem checkWrite_predicts_write T h a v m :
  (h < length (lastWriteData_ m))%nat ->
  match checkWrite T a v m with
  | ret_true v' =>
      exists m',
        write T h a v m = (ret_true tt, m') /\
        data_ m' = store_le (data_ m) a (bytes_of T) v' /\
        lastWriteData_ m' !! h
        = Some (LastWriteData.mk (sizeof T) a v' (load T a m))
  | ret_false why => write T h a v m = (ret_false why, m)
  | throws => False
  end.
Proof.
  intros Hh.
  assert (forall lwd, <[h := lwd]> (lastWriteData_ m) !! h = Some lwd) as Hins.
  { intros lwd. by apply list_lookup_insert_eq. }
  apply lookup_lt_is_Some_2 in Hh as [old Hold].
  unfold checkWrite, write, writeRegister.
  destruct (negb (isWrite _)); [done|].
  destruct (_ && _); [done|].
  destruct (isMemMappedReg _).
  - destruct (decide (T ≠ W4)) as [|Heq]; [done|].
    apply not_ne_W4 in Heq as ->.
    destruct (negb (Z.land a 3 =? 0)); [done|].
    rewrite Hold. eexists. split; [reflexivity|]. simpl. split; [done|]. apply Hins.
  - rewrite Hold. eexists. split; [reflexivity|]. simpl. split; [done|]. apply Hins.
Qed.

Lemma checkWrite_predicts_write_witness :
  exists m',
    write W4 1 0x1000 0xaaaabbbb demo = (ret_true tt, m') /\
    data_ m' = store_le (data_ demo) 0x1000 4 0xbbbb /\
    lastWriteData_ m' !! 1%nat = Some (LastWriteData.mk 4 0x1000 0xbbbb 0).
Proof.
  apply (checkWrite_predicts_write W4 1 0x1000 0xaaaabbbb demo).
  simpl. lia.
Defined.

(** ** Poke, then read or fetch *)

Lemma poke_true_data T a v m m' :
  poke T a v m = (ret_true tt, m') ->
  (isMemMappedReg (getPma (pmaMgr_ m) a) = true -> T = W4 /\ Z.land a 3 = 0) /\
  pmaMgr_ m' = pmaMgr_ m /\
  data_ m' =
  store_le (data_ m) a (bytes_of T)
    (if isMemMappedReg (getPma (pmaMgr_ m) a) then doRegisterMasking a v m else v).
Proof.
  unfold poke.
  destruct (negb (isMapped _)); [done|].
  destruct (_ && _); [done|].
  destruct (isMemMappedReg _).
  - destruct (decide (T ≠ W4)) as [|Heq]; [done|].
    apply not_ne_W4 in Heq as ->.
    destruct (Z.eqb_spec (Z.land a 3) 0); [|done]. simpl.
    intros [= <-]. done.
  - intros [= <-]. done.
Qed.

(** X7: after a successful [poke] of a value of type [T] at [a], a data read
    of the same width at [a] succeeds whenever the page is readable and the
    access does not straddle pages of different attributes, and it returns
    the poked value, masked on a register page. An instruction fetch of the
    poked word or half-word returns it under the same conditions on an
    executable page. *)
Theorem poke_then_read T a v m m' :
  let pma1 := getPma (pmaMgr_ m) a in
  let stored := if isMemMappedReg pma1 then Z.land v (getMemoryMappedMask a m) else v in
  fits T v ->
  poke T a v m = (ret_true tt, m') ->
  (misaligned T a = true -> pma1 = getPma (pmaMgr_ m) (last_byte T a)) ->
  (isRead pma1 = true -> read T a m' = ret_true stored) /\
  (isExec pma1 = true -> T = W4 -> readInstWord a m' = ret_true stored) /\
  (isExec pma1 = true -> T = W2 -> readInstHalfWord a m' = ret_true stored).
Proof.
  intros pma1 stored Hv Hpoke Hstr.
  apply poke_true_data in Hpoke as (Hreg & Hp & Hd). fold pma1 in Hreg, Hd.
  assert (load T a m' = stored) as Hload.
  { unfold load. rewrite Hd, load_le_store_le, <- sizeof_bytes_of.
    apply Z.mod_small. subst stored. unfold doRegisterMasking.
    destruct (isMemMappedReg pma1); [|done].
    destruct Hreg as [-> _]; [done|]. by apply land_fits_W4. }
  assert (misaligned T a && pma_differ pma1 (getPma (pmaMgr_ m) (last_byte T a))
          = false) as Hchk.
  { destruct (misaligned T a); [|done]. simpl. unfold pma_differ.
    apply bool_decide_eq_false. specialize (Hstr eq_refl). tauto. }
  split; [|split].
  - intros Hrd. apply read_true_cases. rewrite Hp. fold pma1.
    split; [done|]. split; [done|]. split; [done|]. done.
  - intros Hex ->. unfold readInstWord. rewrite Hp. fold pma1. rewrite Hex.
    rewrite last_byte_W4 in Hchk. unfold misaligned in Hchk.
    change (sizeof W4 - 1) with 3 in Hchk.
    by rewrite Hchk, Hload.
  - intros Hex ->. unfold readInstHalfWord. rewrite Hp. fold pma1. rewrite Hex.
    rewrite last_byte_W2 in Hchk. unfold misaligned in Hchk.
    change (sizeof W2 - 1) with 1 in Hchk.
    by rewrite Hchk, Hload.
Qed.

Lemma poke_then_read_witness :
  read W4 0x10000 (snd (poke W4 0x10000 0x13 demo)) = ret_true 0x13 /\
  readInstWord 0x10000 (snd (poke W4 0x10000 0x13 demo)) = ret_true 0x13.
Proof.
  assert (fits W4 0x13) as Hv by (unfold fits; simpl; lia).
  destruct (poke_then_read W4 0x10000 0x13 demo (snd (poke W4 0x10000 0x13 demo))
              Hv eq_refl) as (Hr & Hi & _).
  - discriminate.
  - split; [exact (Hr eq_refl) | exact (Hi eq_refl eq_refl)].
Defined.

(** ** Instruction fetch *)

(** X8: [readInstWord] and [readInstHalfWord] return true exactly when the
    page of the first byte is executable and a misaligned fetch has the same
    attributes at its last byte; the register attribute plays no part, and
    the value is the little-endian value of the bytes at the address. *)
Theorem fetch_true_iff a m v :
  let pma := getPma (pmaMgr_ m) a in
  (readInstWord a m = ret_true v <->
   isExec pma = true /\
   (Z.land a 3 ≠ 0 -> pma = getPma (pmaMgr_ m) (size_t_add a 3)) /\
   v = load W4 a m) /\
  (readInstHalfWord a m = ret_true v <->
   isExec pma = true /\
   (Z.land a 1 ≠ 0 -> pma = getPma (pmaMgr_ m) (size_t_add a 1)) /\
   v = load W2 a m).
Proof.
  intros pma. unfold readInstWord, readInstHalfWord, pma_differ. fold pma.
  destruct (isExec pma); [|intuition congruence].
  split.
  - destruct (Z.eqb_spec (Z.land a 3) 0); simpl; [intuition congruence|].
    case_bool_decide; intuition congruence.
  - destruct (Z.eqb_spec (Z.land a 1) 0); simpl; [intuition congruence|].
    case_bool_decide; intuition congruence.
Qed.

Lemma fetch_true_iff_witness :
  readInstHalfWord 0x1000 demo_exec_mmr = ret_true 0 /\
  read W2 0x1000 demo_exec_mmr = ret_false BadRegister.
Proof.
  split; [|reflexivity].
  apply (fetch_true_iff 0x1000 demo_exec_mmr 0).
  split; [reflexivity|]. split; [|reflexivity].
  intros H. by contradict H.
Defined.

(** X9: on a page outside the register area that is executable exactly when
    it is readable, instruction fetch and data read agree: [readInstWord] is
    [read<uint32_t>] and [readInstHalfWord] is [read<uint16_t>], in result
    and in value. *)
Theorem fetch_agrees_with_read a m :
  let pma := getPma (pmaMgr_ m) a in
  isExec pma = isRead pma ->
  isMemMappedReg pma = false ->
  readInstWord a m = read W4 a m /\ readInstHalfWord a m = read W2 a m.
Proof.
  intros pma Hex Hreg.
  unfold readInstWord, readInstHalfWord, read. fold pma.
  rewrite Hex, Hreg, last_byte_W4, last_byte_W2. unfold misaligned.
  change (sizeof W4 - 1) with 3. change (sizeof W2 - 1) with 1.
  destruct (isRead pma); simpl; [|done].
  split; by repeat case_match.
Qed.

Lemma fetch_agrees_with_read_witness :
  readInstWord 0xffe demo = read W4 0xffe demo /\
  readInstHalfWord 0xffe demo = read W2 0xffe demo.
Proof.
  apply (fetch_agrees_with_read 0xffe demo); reflexivity.
Defined.

(** ** Little-endian layout *)

(** X10: the backing store is little-endian across widths. Whenever the
    reads involved succeed, a half-word is its byte at [a] plus 2^8 times the
    byte at [a+1], a word is the half-word at [a] plus 2^16 times the
    half-word at [a+2], and a double-word is the word at [a] plus 2^32 times
    the word at [a+4]. *)
Theorem read_little_endian a m v lo hi :
  (read W2 a m = ret_true v -> readByte a m = ret_true lo ->
   readByte (a + 1) m = ret_true hi -> v = lo + 2 ^ 8 * hi) /\
  (read W4 a m = ret_true v -> read W2 a m = ret_true lo ->
   read W2 (a + 2) m = ret_true hi -> v = lo + 2 ^ 16 * hi) /\
  (read W8 a m = ret_true v -> read W4 a m = ret_true lo ->
   read W4 (a + 4) m = ret_true hi -> v = lo + 2 ^ 32 * hi).
Proof.
  split; [|split].
  - rewrite !readByte_read_W1. intros Hv Hlo Hhi.
    apply read_true_load in Hv as ->, Hlo as ->, Hhi as ->.
    apply (load_le_app 1 (data_ m) a 1).
  - intros Hv Hlo Hhi.
    apply read_true_load in Hv as ->, Hlo as ->, Hhi as ->.
    apply (load_le_app 2 (data_ m) a 2).
  - intros Hv Hlo Hhi.
    apply read_true_load in Hv as ->, Hlo as ->, Hhi as ->.
    apply (load_le_app 4 (data_ m) a 4).
Qed.

Lemma read_little_endian_witness :
  read W4 0x200 (snd (write W4 0 0x200 0xdeadbeef demo)) = ret_true 0xdeadbeef /\
  read W2 0x200 (snd (write W4 0 0x200 0xdeadbeef demo)) = ret_true 0xbeef /\
  read W2 0x202 (snd (write W4 0 0x200 0xdeadbeef demo)) = ret_true 0xdead /\
  0xdeadbeef = 0xbeef + 2 ^ 16 * 0xdead.
Proof.
  split; [reflexivity|]. split; [reflexivity|]. split; [reflexivity|].
  exact (proj1 (proj2 (read_little_endian 0x200
                         (snd (write W4 0 0x200 0xdeadbeef demo))
                         0xdeadbeef 0xbeef 0xdead)) eq_refl eq_refl eq_refl).
Defined.

(** ** Hart ids outside the configured range *)

(** X11: with a hart id that is not below the hart count, [write] never
    returns true and never changes the memory: it returns false where
    [checkWrite] does, and otherwise ends in the exception of [at]; the
    last-write accessors and the reservation accessors given such an id end
    in that exception as well. *)
Theorem unconfigured_hart T h a v m :
  (length (lastWriteData_ m) <= h)%nat ->
  (length (reservations_ m) <= h)%nat ->
  snd (write T h a v m) = m /\
  (fst (write T h a v m) = throws <-> returns_true (checkWrite T a v m)) /\
  (forall why, fst (write T h a v m) = ret_false why <-> checkWrite T a v m = ret_false why) /\
  getLastWriteNewValue h a v m = None /\
  getLastWriteOldValue h a v m = None /\
  clearLastWriteInfo h m = None /\
  makeLr h a v m = None /\
  invalidateLr h m = None /\
  hasLr h a m = None.
Proof.
  intros Hl Hr.
  apply lookup_ge_None_2 in Hl. apply lookup_ge_None_2 in Hr.
  unfold getLastWriteNewValue, getLastWriteOldValue, clearLastWriteInfo,
    makeLr, invalidateLr, hasLr.
  rewrite Hl, Hr. simpl.
  unfold write, checkWrite, writeRegister. rewrite Hl.
  destruct (negb (isWrite _)); simpl; [intuition congruence|].
  destruct (_ && _); simpl; [intuition congruence|].
  destruct (isMemMappedReg _); simpl; [|intuition congruence].
  destruct (decide (T ≠ W4)); simpl; [intuition congruence|].
  destruct (negb (Z.land a 3 =? 0)); simpl; intuition congruence.
Qed.

Lemma unconfigured_hart_witness :
  snd (write W4 2 0x200 1 demo) = demo /\
  fst (write W4 2 0x200 1 demo) = throws /\
  fst (write W4 2 0x1002 1 demo) = ret_false BadRegister /\
  hasLr 2 0x200 demo = None.
Proof.
  assert (length (lastWriteData_ demo) <= 2)%nat as Hl by (simpl; lia).
  assert (length (reservations_ demo) <= 2)%nat as Hr by (simpl; lia).
  destruct (unconfigured_hart W4 2 0x200 1 demo Hl Hr)
    as (Hsame & Hthrow & _ & _ & _ & _ & _ & _ & Hhas).
  destruct (unconfigured_hart W4 2 0x1002 1 demo Hl Hr) as (_ & _ & Hfalse & _).
  split; [exact Hsame|]. split; [exact (proj2 Hthrow I)|].
  split; [exact (proj2 (Hfalse BadRegister) eq_refl) | exact Hhas].
Defined.

(** ** The last-write recorder, continued *)

Lemma writeRegister_lastWriteData h a v m h' :
  h' ≠ h ->
  lastWriteData_ (snd (writeRegister h a v m)) !! h' = lastWriteData_ m !! h'.
Proof.
  intros Hne. unfold writeRegister.
  repeat case_match; simpl; try done. by apply list_lookup_insert_ne.
Qed.

Lemma write_lastWriteData_other T h a v m h' :
  h' ≠ h ->
  lastWriteData_ (snd (write T h a v m)) !! h' = lastWriteData_ m !! h'.
Proof.
  intros Hne. unfold write.
  repeat case_match; simpl; try done.
  - by apply writeRegister_lastWriteData.
  - by apply list_lookup_insert_ne.
Qed.

Lemma write_lastWriteData_length T h a v m :
  length (lastWriteData_ (snd (write T h a v m))) = length (lastWriteData_ m).
Proof.
  unfold write, writeRegister.
  repeat case_match; simpl; try done; by rewrite length_insert.
Qed.

(** X12: a [write] by hart [h], whatever its outcome, leaves the memory
    size, the attributes, the reservation table, the number of last-write
    slots and the last-write slot of every other hart as they were. *)
Theorem write_frame T h a v m :
  let m' := snd (write T h a v m) in
  size_ m' = size_ m /\
  pmaMgr_ m' = pmaMgr_ m /\
  reservations_ m' = reservations_ m /\
  length (lastWriteData_ m') = length (lastWriteData_ m) /\
  forall h', h' ≠ h -> lastWriteData_ m' !! h' = lastWriteData_ m !! h'.
Proof.
  intros m'. subst m'.
  split. { unfold write, writeRegister. by repeat case_match. }
  split; [apply write_pmaMgr|].
  split; [apply write_reservations|].
  split; [apply write_lastWriteData_length|].
  intros h'. apply write_lastWriteData_other.
Qed.

Lemma write_frame_witness :
  lastWriteData_ (snd (write W4 0 0x200 1 demo)) !! 1%nat = lastWriteData_ demo !! 1%nat.
Proof.
  destruct (write_frame W4 0 0x200 1 demo) as (_ & _ & _ & _ & H).
  apply H. discriminate.
Defined.

(** X13: [poke] is not recorded: whatever its outcome it leaves every
    last-write slot (and the memory size and attributes) as it was, so the
    last-write accessors report after a poke what they reported before. *)
Theorem poke_not_recorded T a v m h addr0 value0 :
  let m' := snd (poke T a v m) in
  lastWriteData_ m' = lastWriteData_ m /\
  size_ m' = size_ m /\
  pmaMgr_ m' = pmaMgr_ m /\
  getLastWriteNewValue h addr0 value0 m' = getLastWriteNewValue h addr0 value0 m /\
  getLastWriteOldValue h addr0 value0 m' = getLastWriteOldValue h addr0 value0 m.
Proof.
  intros m'. subst m'.
  assert (lastWriteData_ (snd (poke T a v m)) = lastWriteData_ m) as Hl.
  { unfold poke. by repeat case_match. }
  split; [done|].
  split. { unfold poke. by repeat case_match. }
  split; [apply poke_pmaMgr|].
  unfold getLastWriteNewValue, getLastWriteOldValue. by rewrite Hl.
Qed.

(** X14: after [clearLastWriteInfo(h)] both last-write accessors return size
    0 for hart [h] and leave the caller's [addr] and [value] unmodified; the
    slots of the other harts, the backing store and the reservations are
    untouched. *)
Theorem clearLastWriteInfo_clears h m m' addr0 value0 :
  clearLastWriteInfo h m = Some m' ->
  getLastWriteNewValue h addr0 value0 m' = Some (0, addr0, value0) /\
  getLastWriteOldValue h addr0 value0 m' = Some (0, addr0, value0) /\
  (forall h', h' ≠ h -> lastWriteData_ m' !! h' = lastWriteData_ m !! h') /\
  data_ m' = data_ m /\
  reservations_ m' = reservations_ m.
Proof.
  unfold clearLastWriteInfo. intros H.
  destruct (lastWriteData_ m !! h) as [lwd|] eqn:Hlwd; simplify_eq/=.
  unfold getLastWriteNewValue, getLastWriteOldValue. simpl.
  rewrite list_lookup_insert_eq by (by eapply lookup_lt_Some). simpl.
  repeat split; try done.
  intros h' Hne. by apply list_lookup_insert_ne.
Qed.

Lemma clearLastWriteInfo_clears_witness :
  getLastWriteNewValue 0 7 9 (snd (write W4 0 0x200 0xdeadbeef demo))
  = Some (4, 0x200, 0xdeadbeef) /\
  exists m2,
    clearLastWriteInfo 0 (snd (write W4 0 0x200 0xdeadbeef demo)) = Some m2 /\
    getLastWriteNewValue 0 7 9 m2 = Some (0, 7, 9).
Proof.
  split; [reflexivity|].
  eexists. split; [reflexivity|].
  apply (clearLastWriteInfo_clears 0 (snd (write W4 0 0x200 0xdeadbeef demo))).
  reflexivity.
Defined.

Lemma write_true_data T h a v m m' :
  isMemMappedReg (getPma (pmaMgr_ m) a) = false ->
  write T h a v m = (ret_true tt, m') ->
  pmaMgr_ m' = pmaMgr_ m /\ data_ m' = store_le (data_ m) a (bytes_of T) v.
Proof.
  intros Hreg. unfold write. rewrite Hreg.
  repeat case_match; try done. by intros [= <-].
Qed.

(** X15: the last-write slot holds one write. After two successful writes of
    width [T] by the same hart to the same address outside the register
    pages, the slot reports the second value only, and the prior value it
    recorded is the first value written. *)
Theorem last_write_not_queued T h a v1 v2 m m1 m2 addr0 value0 :
  fits T v1 ->
  isMemMappedReg (getPma (pmaMgr_ m) a) = false ->
  write T h a v1 m = (ret_true tt, m1) ->
  write T h a v2 m1 = (ret_true tt, m2) ->
  getLastWriteNewValue h addr0 value0 m2 = Some (sizeof T, a, v2) /\
  lastWriteData_ m2 !! h = Some (LastWriteData.mk (sizeof T) a v2 v1).
Proof.
  intros Hv Hreg H1 H2.
  destruct (write_true_data T h a v1 m m1 Hreg H1) as [Hp Hd].
  rewrite <- Hp in Hreg.
  destruct (last_write_after_write T h a v2 m1 m2 addr0 value0 Hreg H2)
    as (Hslot & Hnew & _).
  split; [done|].
  rewrite Hslot. do 2 f_equal.
  unfold load. rewrite Hd, load_le_store_le, <- sizeof_bytes_of.
  by apply Z.mod_small.
Qed.

Lemma last_write_not_queued_witness :
  lastWriteData_ (snd (write W2 1 0x300 0x2222 (snd (write W2 1 0x300 0x1111 demo))))
    !! 1%nat
  = Some (LastWriteData.mk 2 0x300 0x2222 0x1111).
Proof.
  assert (fits W2 0x1111) as Hv by (unfold fits; simpl; lia).
  exact (proj2 (last_write_not_queued W2 1 0x300 0x1111 0x2222 demo _ _ 0 0
                  Hv eq_refl eq_refl eq_refl)).
Defined.

(** ** Making, testing and dropping reservations *)

Lemma hasLr_lookup h addr m :
  hasLr h addr m =
  (fun res => Reservation.valid_ res && (Reservation.addr_ res =? addr))
    <$> reservations_ m !! h.
Proof. unfold hasLr. by destruct (reservations_ m !! h). Qed.

(** X16: after [makeLr(h, addr, size)], [hasLr(h, addr)] is true whatever
    the size, [hasLr(h, addr')] is false for every other address, the answers
    for the other harts are what they were, and the backing store and the
    last-write slots are untouched. *)
Theorem makeLr_hasLr h addr size m m' :
  makeLr h addr size m = Some m' ->
  hasLr h addr m' = Some true /\
  (forall addr', addr' ≠ addr -> hasLr h addr' m' = Some false) /\
  (forall h' addr', h' ≠ h -> hasLr h' addr' m' = hasLr h' addr' m) /\
  data_ m' = data_ m /\
  lastWriteData_ m' = lastWriteData_ m.
Proof.
  unfold makeLr. intros H.
  destruct (reservations_ m !! h) as [res|] eqn:Hres; simplify_eq/=.
  apply lookup_lt_Some in Hres.
  rewrite !hasLr_lookup. simpl.
  rewrite list_lookup_insert_eq by done. simpl. rewrite Z.eqb_refl.
  split; [done|]. split.
  - intros addr' Hne. rewrite hasLr_lookup. simpl.
    rewrite list_lookup_insert_eq by done. simpl.
    destruct (Z.eqb_spec addr addr'); [congruence | done].
  - split; [|done]. intros h' addr' Hne. rewrite !hasLr_lookup. simpl.
    by rewrite list_lookup_insert_ne.
Qed.

Lemma makeLr_hasLr_witness :
  exists m',
    makeLr 1 0x400 8 demo = Some m' /\
    hasLr 1 0x400 m' = Some true /\
    hasLr 1 0x404 m' = Some false.
Proof.
  eexists. split; [reflexivity|].
  destruct (makeLr_hasLr 1 0x400 8 demo _ eq_refl) as (Hsame & Hother & _).
  split; [exact Hsame|]. apply Hother. discriminate.
Defined.

(** X17: after [invalidateLr(h)], [hasLr(h, addr)] is false for every
    address, and the answers for the other harts are what they were. *)
Theorem invalidateLr_hasLr h m m' :
  invalidateLr h m = Some m' ->
  (forall addr, hasLr h addr m' = Some false) /\
  (forall h' addr, h' ≠ h -> hasLr h' addr m' = hasLr h' addr m).
Proof.
  unfold invalidateLr. intros H.
  destruct (reservations_ m !! h) as [res|] eqn:Hres; simplify_eq/=.
  apply lookup_lt_Some in Hres.
  split.
  - intros addr. rewrite hasLr_lookup. simpl.
    by rewrite list_lookup_insert_eq.
  - intros h' addr Hne. rewrite !hasLr_lookup. simpl.
    by rewrite list_lookup_insert_ne.
Qed.

Lemma invalidateLr_hasLr_witness :
  hasLr 0 0x200 (demo_lr 4) = Some true /\
  exists m',
    invalidateLr 0 (demo_lr 4) = Some m' /\
    hasLr 0 0x200 m' = Some false.
Proof.
  split; [reflexivity|].
  eexists. split; [reflexivity|].
  exact (proj1 (invalidateLr_hasLr 0 (demo_lr 4) _ eq_refl) 0x200).
Defined.

Lemma lr_hit_overlap_iff addr s res :
  is_size_t addr -> is_size_t (Reservation.addr_ res) ->
  0 < Reservation.size_ res -> 0 < s ->
  lr_hit addr s res = true <->
  ranges_overlap (Reservation.addr_ res) (Reservation.size_ res) addr s.
Proof.
  intros Ha Hr Hsz Hs. split.
  - intros H. apply lr_hit_spec in H; [|done..].
    destruct H as [H|H].
    + exists addr. lia.
    + exists (Reservation.addr_ res). lia.
  - by apply lr_hit_overlap.
Qed.

(** X18: for a reservation of positive size made by [makeLr(h, ra, rs)] and
    a store of positive size [s] at [a], the loop test of the invalidation
    functions is exactly range overlap: [invalidateOtherHartLr(h', a, s)]
    with [h' ≠ h], and [invalidateLrs(a, s)], make [hasLr(h, ra)] false if
    and only if [[ra, ra+rs)] and [[a, a+s)] have a byte in common, and
    [invalidateOtherHartLr(h, a, s)] keeps [hasLr(h, ra)] true. *)
Theorem store_clears_lr_iff_overlap h h' ra rs a s m m1 :
  is_size_t ra -> is_size_t a -> 0 < rs -> 0 < s -> h' ≠ h ->
  makeLr h ra rs m = Some m1 ->
  (hasLr h ra (invalidateOtherHartLr h' a s m1) = Some false <->
   ranges_overlap ra rs a s) /\
  (hasLr h ra (invalidateLrs a s m1) = Some false <-> ranges_overlap ra rs a s) /\
  hasLr h ra (invalidateOtherHartLr h a s m1) = Some true.
Proof.
  intros Hra Ha Hrs Hs Hne. unfold makeLr. intros H.
  destruct (reservations_ m !! h) as [res|] eqn:Hres; simplify_eq/=.
  apply lookup_lt_Some in Hres.
  pose proof (lr_hit_overlap_iff a s (Reservation.mk ra rs true) Ha Hra Hrs Hs) as Hov.
  simpl in Hov.
  rewrite !hasLr_lookup, !invalidateOtherHartLr_lookup, invalidateLrs_lookup. simpl.
  rewrite list_lookup_insert_eq by done. simpl.
  rewrite decide_False by done. rewrite decide_True by done. simpl.
  rewrite Z.eqb_refl. unfold lr_step.
  destruct (lr_hit a s (Reservation.mk ra rs true)); simpl; rewrite ?Z.eqb_refl.
  - intuition.
  - split; [|split; [|done]]; split; try done; intros Hc; apply Hov in Hc; done.
Qed.

Lemma store_clears_lr_iff_overlap_witness :
  hasLr 0 0x200 (invalidateOtherHartLr 1 0x203 2 (demo_lr 4)) = Some false /\
  hasLr 0 0x200 (invalidateOtherHartLr 0 0x203 2 (demo_lr 4)) = Some true.
Proof.
  assert (is_size_t 0x200) as Hra by (unfold is_size_t, size_t_max; lia).
  assert (is_size_t 0x203) as Ha by (unfold is_size_t, size_t_max; lia).
  assert (0 < 4) as Hrs by lia. assert (0 < 2) as Hs by lia.
  assert (1%nat ≠ 0%nat) as Hne by discriminate.
  destruct (store_clears_lr_iff_overlap 0 1 0x200 4 0x203 2 demo (demo_lr 4)
              Hra Ha Hrs Hs Hne eq_refl) as (Hother & _ & Hself).
  split; [|exact Hself].
  apply Hother. exists 0x203. lia.
Defined.

(** X19: [invalidateLrs] and [invalidateOtherHartLr(h, ...)] treat every hart
    other than [h] alike; [invalidateOtherHartLr] leaves the reservation of
    [h] as it is; and with an [h] that is no configured hart the two
    functions leave the same memory. *)
Theorem invalidateLrs_vs_other h a s m :
  (forall h', h' ≠ h ->
     reservations_ (invalidateOtherHartLr h a s m) !! h'
     = reservations_ (invalidateLrs a s m) !! h') /\
  reservations_ (invalidateOtherHartLr h a s m) !! h = reservations_ m !! h /\
  ((length (reservations_ m) <= h)%nat ->
   invalidateOtherHartLr h a s m = invalidateLrs a s m).
Proof.
  split; [|split].
  - intros h' Hne. rewrite invalidateOtherHartLr_lookup, invalidateLrs_lookup.
    destruct (reservations_ m !! h'); simpl; [|done]. by rewrite decide_False.
  - rewrite invalidateOtherHartLr_lookup.
    destruct (reservations_ m !! h); simpl; [|done]. by rewrite decide_True.
  - intros Hlen. unfold invalidateOtherHartLr, invalidateLrs. f_equal.
    apply imap_ext. intros i res Hi. apply lookup_lt_Some in Hi.
    rewrite decide_False; [done | lia].
Qed.

Lemma invalidateLrs_vs_other_witness :
  invalidateOtherHartLr 2 0x200 4 (demo_lr 4) = invalidateLrs 0x200 4 (demo_lr 4).
Proof.
  apply (invalidateLrs_vs_other 2 0x200 4 (demo_lr 4)). simpl. lia.
Defined.

Lemma lr_step_lr_step a1 s1 a2 s2 res :
  lr_step a1 s1 (lr_step a2 s2 res) = lr_step a2 s2 (lr_step a1 s1 res).
Proof.
  unfold lr_step.
  assert (forall a s r, lr_hit a s (Reservation.clear r) = lr_hit a s r) as Hc by done.
  destruct (lr_hit a2 s2 res) eqn:H2, (lr_hit a1 s1 res) eqn:H1;
    rewrite ?Hc, ?H1, ?H2; done.
Qed.

Lemma lr_step_idemp a s res : lr_step a s (lr_step a s res) = lr_step a s res.
Proof.
  unfold lr_step.
  assert (lr_hit a s (Reservation.clear res) = lr_hit a s res) as Hc by done.
  destruct (lr_hit a s res) eqn:H; rewrite ?Hc, ?H; done.
Qed.

(** X20: invalidation is idempotent and insensitive to order: running
    [invalidateLrs] twice for the same store is the same as running it once,
    and the invalidations for two stores, by any harts, leave the same
    memory in either order. *)
Theorem invalidation_idempotent_commutes a1 s1 a2 s2 h1 h2 m :
  invalidateLrs a1 s1 (invalidateLrs a1 s1 m) = invalidateLrs a1 s1 m /\
  invalidateOtherHartLr h1 a1 s1 (invalidateOtherHartLr h1 a1 s1 m)
  = invalidateOtherHartLr h1 a1 s1 m /\
  invalidateLrs a1 s1 (invalidateLrs a2 s2 m)
  = invalidateLrs a2 s2 (invalidateLrs a1 s1 m) /\
  invalidateOtherHartLr h1 a1 s1 (invalidateOtherHartLr h2 a2 s2 m)
  = invalidateOtherHartLr h2 a2 s2 (invalidateOtherHartLr h1 a1 s1 m).
Proof.
  assert (forall m1 m2 : Memory,
            size_ m1 = size_ m2 -> data_ m1 = data_ m2 ->
            lastWriteData_ m1 = lastWriteData_ m2 -> pmaMgr_ m1 = pmaMgr_ m2 ->
            (forall i, reservations_ m1 !! i = reservations_ m2 !! i) ->
            m1 = m2) as Heq.
  { intros [] [] ???? Hl; simplify_eq/=. f_equal. by apply list_eq. }
  repeat split; apply Heq; try done; intros i;
    rewrite ?invalidateLrs_lookup, ?invalidateOtherHartLr_lookup;
    destruct (reservations_ m !! i); simpl; try done; f_equal;
    repeat case_decide; try done;
    auto using lr_step_idemp, lr_step_lr_step.
Qed.

(** ** The hart count *)

Lemma resize_to_length {A} n (d : A) l : length (resize_to n d l) = n.
Proof.
  unfold resize_to. rewrite length_app, length_take, length_replicate. lia.
Qed.

Lemma resize_to_lookup_lt {A} n (d : A) l i :
  (i < n)%nat -> resize_to n d l !! i = Some (default d (l !! i)).
Proof.
  intros Hi. unfold resize_to.
  destruct (decide (i < length l)%nat) as [Hlt|Hge].
  - rewrite lookup_app_l by (rewrite length_take; lia).
    rewrite lookup_take_lt by done.
    apply lookup_lt_is_Some_2 in Hlt as [x ->]. done.
  - rewrite lookup_app_r by (rewrite length_take; lia).
    rewrite (lookup_ge_None_2 l i) by lia. simpl.
    apply lookup_replicate_2. rewrite length_take. lia.
Qed.

(** X21: [setHartCount(count)] gives both per-hart tables exactly [count]
    entries. An entry that existed is kept; a new one is default
    initialised: an invalid reservation and no pending write. Every id below
    [count] is then accepted by [makeLr] and [clearLastWriteInfo], and the
    backing store is untouched. *)
Theorem setHartCount_tables count m :
  let m' := setHartCount count m in
  length (reservations_ m') = count /\
  length (lastWriteData_ m') = count /\
  (forall h, (h < count)%nat ->
     reservations_ m' !! h = Some (default Reservation.init (reservations_ m !! h)) /\
     lastWriteData_ m' !! h = Some (default LastWriteData.init (lastWriteData_ m !! h)) /\
     (forall addr size, is_Some (makeLr h addr size m')) /\
     is_Some (clearLastWriteInfo h m')) /\
  data_ m' = data_ m /\
  pmaMgr_ m' = pmaMgr_ m.
Proof.
  intros m'. subst m'. unfold setHartCount. simpl.
  split; [apply resize_to_length|]. split; [apply resize_to_length|].
  split; [|done].
  intros h Hh.
  pose proof (resize_to_lookup_lt count Reservation.init (reservations_ m) h Hh) as Hr.
  pose proof (resize_to_lookup_lt count LastWriteData.init (lastWriteData_ m) h Hh) as Hl.
  split; [done|]. split; [done|]. split.
  - intros addr size. unfold makeLr. simpl. rewrite Hr. by eexists.
  - unfold clearLastWriteInfo. simpl. rewrite Hl. by eexists.
Qed.

Lemma setHartCount_tables_witness :
  reservations_ (setHartCount 3 (demo_lr 4)) !! 0%nat = Some (Reservation.mk 0x200 4 true) /\
  reservations_ (setHartCount 3 (demo_lr 4)) !! 2%nat = Some Reservation.init.
Proof.
  destruct (setHartCount_tables 3 (demo_lr 4)) as (_ & _ & H & _).
  split.
  - apply (H 0%nat). lia.
  - apply (H 2%nat). lia.
Defined.

(** ** Pages *)

Lemma last_byte_exact T a :
  is_size_t a -> a + sizeof T - 1 < size_t_max -> last_byte T a = a + sizeof T - 1.
Proof.
  unfold is_size_t, last_byte, size_t_sub, size_t_add. intros Ha Hlt.
  rewrite Zminus_mod_idemp_l. apply Z.mod_small.
  pose proof (sizeof_pos T). lia.
Qed.

Lemma aligned_mod T a : misaligned T a = false -> a mod sizeof T = 0.
Proof.
  unfold misaligned. intros H. apply negb_false_iff, Z.eqb_eq in H.
  destruct T.
  - apply Z.mod_1_r.
  - change (sizeof W2 - 1) with (Z.ones 1) in H. by rewrite Z.land_ones in H.
  - change (sizeof W4 - 1) with (Z.ones 2) in H. by rewrite Z.land_ones in H.
  - change (sizeof W8 - 1) with (Z.ones 3) in H. by rewrite Z.land_ones in H.
Qed.

Lemma div_aligned t p c :
  0 < t -> 0 < p -> (c * t + (t - 1)) / (t * p) = (c * t) / (t * p).
Proof.
  intros Ht Hp. rewrite <- !Z.div_div by lia. f_equal.
  rewrite Z.div_add_l by lia. rewrite Z.div_small by lia.
  rewrite Z.div_mul by lia. lia.
Qed.

(** X22: an access that passes the alignment test lies within one page. For
    a page shift of at least 3 and an address with
    [address & (sizeof(T) - 1) == 0], the last byte is at [a + sizeof(T) - 1]
    without wrap-around and has the page index of the first byte; this is
    the case in which the accessors skip the look-up of the second
    attribute. *)
Theorem aligned_access_in_one_page pageShift_ T a :
  3 <= pageShift_ < 64 ->
  is_size_t a ->
  misaligned T a = false ->
  last_byte T a = a + sizeof T - 1 /\
  getPageIx pageShift_ (last_byte T a) = getPageIx pageShift_ a.
Proof.
  intros Hs Ha Hal. apply aligned_mod in Hal.
  assert (exists k, 0 <= k <= 3 /\ sizeof T = 2 ^ k) as (k & Hk & HT).
  { destruct T; [exists 0|exists 1|exists 2|exists 3]; split; (lia || reflexivity). }
  assert (0 < sizeof T) as Hpos by apply sizeof_pos.
  apply Z.mod_divide in Hal as [c Hc]; [|lia].
  assert (size_t_max = sizeof T * 2 ^ (64 - k)) as Hmax.
  { rewrite HT, <- Z.pow_add_r by lia. unfold size_t_max. f_equal. lia. }
  assert (0 < 2 ^ (64 - k)) as Hp64 by (apply Z.pow_pos_nonneg; lia).
  assert (a + sizeof T - 1 < size_t_max) as Hlt.
  { unfold is_size_t in Ha. rewrite Hmax in Ha |- *. subst a.
    set (P := 2 ^ (64 - k)) in *.
    assert (c < P) as Hcp by nia.
    assert ((c + 1) * sizeof T <= P * sizeof T) by (apply Z.mul_le_mono_nonneg_r; lia).
    lia. }
  rewrite last_byte_exact by done. split; [done|].
  unfold getPageIx. rewrite !Z.shiftr_div_pow2 by lia.
  replace (2 ^ pageShift_) with (sizeof T * 2 ^ (pageShift_ - k)).
  - rewrite Hc.
    replace (c * sizeof T + sizeof T - 1) with (c * sizeof T + (sizeof T - 1)) by lia.
    apply div_aligned; [done|]. apply Z.pow_pos_nonneg; lia.
  - rewrite HT, <- Z.pow_add_r by lia. f_equal. lia.
Qed.

Lemma aligned_access_in_one_page_witness :
  last_byte W8 0xff8 = 0xfff /\ getPageIx 12 (last_byte W8 0xff8) = getPageIx 12 0xff8.
Proof.
  apply (aligned_access_in_one_page 12 W8 0xff8).
  - lia.
  - unfold is_size_t, size_t_max. lia.
  - reflexivity.
Defined.

(** X23: for a typed address and a page shift below 64,
    [getPageStartAddr] returns the page index times the page size: a
    multiple of the page size that is at most the address and less than a
    page below it, in the same page, and a fixed point of the function. *)
Theorem getPageStartAddr_bounds pageShift_ addr :
  0 <= pageShift_ < 64 ->
  is_size_t addr ->
  let start := getPageStartAddr pageShift_ addr in
  start = getPageIx pageShift_ addr * 2 ^ pageShift_ /\
  start <= addr < start + 2 ^ pageShift_ /\
  start mod 2 ^ pageShift_ = 0 /\
  getPageIx pageShift_ start = getPageIx pageShift_ addr /\
  getPageStartAddr pageShift_ start = start.
Proof.
  intros Hs Ha start.
  assert (0 < 2 ^ pageShift_) as Hp by (apply Z.pow_pos_nonneg; lia).
  assert (forall x, is_size_t x ->
            getPageStartAddr pageShift_ x = x / 2 ^ pageShift_ * 2 ^ pageShift_) as Hstart.
  { intros x Hx. unfold getPageStartAddr, is_size_t in *.
    rewrite Z.shiftl_mul_pow2, Z.shiftr_div_pow2 by lia.
    apply Z.mod_small.
    pose proof (Z.mul_div_le x (2 ^ pageShift_) Hp).
    pose proof (Z.div_pos x (2 ^ pageShift_)). nia. }
  assert (forall x, getPageIx pageShift_ x = x / 2 ^ pageShift_) as Hix.
  { intros x. unfold getPageIx. apply Z.shiftr_div_pow2. lia. }
  subst start. rewrite Hstart by done. rewrite !Hix.
  set (q := addr / 2 ^ pageShift_).
  pose proof (Z.mod_pos_bound addr (2 ^ pageShift_) Hp) as Hmod.
  pose proof (Z.div_mod addr (2 ^ pageShift_)) as Hdm. fold q in Hdm.
  assert (q * 2 ^ pageShift_ / 2 ^ pageShift_ = q) as Hq by (apply Z.div_mul; lia).
  split; [done|]. split; [lia|].
  split; [apply Z.mod_mul; lia|].
  split; [done|].
  assert (0 <= q) as Hq0 by (apply Z.div_pos; unfold is_size_t in Ha; lia).
  rewrite Hstart by (unfold is_size_t in *; nia). by rewrite Hq.
Qed.

Lemma getPageStartAddr_bounds_witness :
  getPageStartAddr 12 0x12345 = 0x12000 /\ 0x12000 <= 0x12345 < 0x12000 + 2 ^ 12.
Proof.
  assert (0 <= 12 < 64) as Hs by lia.
  assert (is_size_t 0x12345) as Ha by (unfold is_size_t, size_t_max; lia).
  destruct (getPageStartAddr_bounds 12 0x12345 Hs Ha) as (H1 & H2 & _).
  split; [exact H1 | exact H2].
Defined.

(** X24: with a region mask of [k] one bits, [getRegionIndex] is the address
    divided by the region size, reduced modulo [2^k]; it lies between 0 and
    the mask. *)
Theorem getRegionIndex_bounds regionShift_ k addr :
  0 <= regionShift_ -> 0 <= k ->
  getRegionIndex regionShift_ (Z.ones k) addr = (addr / 2 ^ regionShift_) mod 2 ^ k /\
  0 <= getRegionIndex regionShift_ (Z.ones k) addr <= Z.ones k.
Proof.
  intros Hs Hk. unfold getRegionIndex.
  rewrite Z.land_ones, Z.shiftr_div_pow2 by lia.
  split; [done|].
  assert (0 < 2 ^ k) as Hp by (apply Z.pow_pos_nonneg; lia).
  pose proof (Z.mod_pos_bound (addr / 2 ^ regionShift_) (2 ^ k) Hp).
  rewrite Z.ones_equiv. lia.
Qed.

Lemma getRegionIndex_bounds_witness :
  getRegionIndex 28 0xf 0x123456789 = 2.
Proof.
  assert (0 <= 28) as Hs by lia. assert (0 <= 4) as Hk by lia.
  exact (proj1 (getRegionIndex_bounds 28 4 0x123456789 Hs Hk)).
Defined.

(** ** The bytes a store leaves *)

Lemma byte_at_store_le_inside n : forall d a v i,
  0 <= i < Z.of_nat n ->
  byte_at (store_le d a n v) (a + i) = (v / 2 ^ (8 * i)) mod 256.
Proof.
  induction n as [|n IH]; intros d a v i Hi; [lia|].
  rewrite store_le_S.
  destruct (decide (i = 0)) as [->|Hne].
  - rewrite Z.add_0_r, byte_at_store_le_below by lia.
    rewrite byte_at_insert, decide_True by done.
    rewrite Z.mod_mod by lia. simpl. by rewrite Z.div_1_r.
  - replace (a + i) with (a + 1 + (i - 1)) by lia.
    rewrite IH by lia.
    rewrite Z.div_div by (try apply Z.pow_pos_nonneg; lia).
    change 256 with (2 ^ 8) at 1. rewrite <- Z.pow_add_r by lia.
    do 3 f_equal. lia.
Qed.

(** X25: a successful [write] outside the register pages, and a successful
    [poke] there, store the value in little-endian order: for
    [0 <= i < sizeof(T)] the byte at [a + i] is bits [8i .. 8i+7] of the
    value. *)
Theorem store_byte_order T h a v m i :
  isMemMappedReg (getPma (pmaMgr_ m) a) = false ->
  0 <= i < sizeof T ->
  (forall m', write T h a v m = (ret_true tt, m') ->
     byte_at (data_ m') (a + i) = (v / 2 ^ (8 * i)) mod 256) /\
  (forall m', poke T a v m = (ret_true tt, m') ->
     byte_at (data_ m') (a + i) = (v / 2 ^ (8 * i)) mod 256).
Proof.
  intros Hreg Hi. rewrite sizeof_bytes_of in Hi. split; intros m' H.
  - apply write_true_data in H as [_ ->]; [|done].
    by apply byte_at_store_le_inside.
  - apply poke_true_data in H as (_ & _ & ->). rewrite Hreg.
    by apply byte_at_store_le_inside.
Qed.

Lemma store_byte_order_witness :
  byte_at (data_ (snd (write W4 0 0x200 0xdeadbeef demo))) (0x200 + 1) = 0xbe /\
  byte_at (data_ (snd (poke W4 0x200 0xdeadbeef demo))) (0x200 + 3) = 0xde.
Proof.
  assert (0 <= 1 < sizeof W4) as H1 by (simpl; lia).
  assert (0 <= 3 < sizeof W4) as H3 by (simpl; lia).
  split.
  - exact (proj1 (store_byte_order W4 0 0x200 0xdeadbeef demo 1 eq_refl H1) _ eq_refl).
  - exact (proj2 (store_byte_order W4 0 0x200 0xdeadbeef demo 3 eq_refl H3) _ eq_refl).
Defined.

(** ** Register writes clear the masked bits *)

(** X26: a successful word write or poke to a register page stores
    [value & mask]: a bit that is clear in the write mask reads back as 0,
    whatever the register held before, and a bit that is set in the mask
    reads back as written. *)
Theorem register_store_masks h a v m i :
  isMemMappedReg (getPma (pmaMgr_ m) a) = true ->
  fits W4 v ->
  0 <= i ->
  (forall m', write W4 h a v m = (ret_true tt, m') ->
     Z.testbit (load W4 a m') i = Z.testbit v i && Z.testbit (getMemoryMappedMask a m) i) /\
  (forall m', poke W4 a v m = (ret_true tt, m') ->
     Z.testbit (load W4 a m') i = Z.testbit v i && Z.testbit (getMemoryMappedMask a m) i).
Proof.
  intros Hreg Hv Hi.
  assert (forall d, load_le (store_le d a 4 (doRegisterMasking a v m)) a 4
                    = Z.land v (getMemoryMappedMask a m)) as Hload.
  { intros d. rewrite load_le_store_le. apply Z.mod_small.
    apply (land_fits_W4 v (getMemoryMappedMask a m)) in Hv. exact Hv. }
  split; intros m' H.
  - unfold write, writeRegister in H. rewrite Hreg in H.
    repeat case_match; try done. simplify_eq/=.
    unfold load. simpl. change (bytes_of W4) with 4%nat.
    by rewrite Hload, Z.land_spec.
  - apply poke_true_data in H as (_ & _ & Hd). rewrite Hreg in Hd.
    unfold load. change (bytes_of W4) with 4%nat in *.
    by rewrite Hd, Hload, Z.land_spec.
Qed.

Lemma register_store_masks_witness :
  Z.testbit (load W4 0x1000 (snd (write W4 0 0x1000 0xaaaabbbb demo))) 17 = false /\
  Z.testbit (load W4 0x1000 (snd (poke W4 0x1000 0xaaaabbbb demo))) 0 = true.
Proof.
  assert (fits W4 0xaaaabbbb) as Hv by (unfold fits; simpl; lia).
  assert (0 <= 17) as H17 by lia. assert (0 <= 0) as H0 by lia.
  split.
  - exact (proj1 (register_store_masks 0 0x1000 0xaaaabbbb demo 17 eq_refl Hv H17)
             _ eq_refl).
  - exact (proj2 (register_store_masks 0 0x1000 0xaaaabbbb demo 0 eq_refl Hv H0)
             _ eq_refl).
Defined.

(** ** Instruction identities, continued *)

Lemma InstId_values_listed :
  InstId.value <$> InstId.enumerators = Z.of_nat <$> seq 0 311.
Proof. by vm_compute. Qed.

Lemma InstId_enumerators_value id :
  InstId.enumerators !! Z.to_nat (InstId.value id) = Some id.
Proof. by destruct id. Qed.

(** X27: the integers of the instruction identities are dense: distinct
    identities have distinct integers, there are 311 identities, and every
    integer from 0 to the integer of [maxId] is the integer of an identity,
    so a table with [maxId + 1] entries is indexed exactly by the
    identities. *)
Theorem InstId_value_dense :
  (forall id1 id2, InstId.value id1 = InstId.value id2 -> id1 = id2) /\
  length InstId.enumerators = 311%nat /\
  InstId.value InstId.maxId + 1 = 311 /\
  (forall n, 0 <= n <= InstId.value InstId.maxId -> exists id, InstId.value id = n).
Proof.
  split; [|split; [reflexivity|split; [reflexivity|]]].
  - intros id1 id2 Heq.
    pose proof (InstId_enumerators_value id1) as H1.
    pose proof (InstId_enumerators_value id2) as H2.
    rewrite Heq in H1. congruence.
  - intros n Hn. change (InstId.value InstId.maxId) with 310 in Hn.
    assert ((InstId.value <$> InstId.enumerators) !! Z.to_nat n = Some n) as Hl.
    { rewrite InstId_values_listed, list_lookup_fmap.
      rewrite lookup_seq_lt by lia. simpl. f_equal. lia. }
    rewrite list_lookup_fmap in Hl.
    destruct (InstId.enumerators !! Z.to_nat n) as [id|]; [|done].
    exists id. by simplify_eq/=.
Qed.

Lemma InstId_value_dense_witness :
  exists id, InstId.value id = 42.
Proof.
  apply (proj2 (proj2 (proj2 InstId_value_dense)) 42).
  change (InstId.value InstId.maxId) with 310. lia.
Defined.
